(** * TiCDC: redo-log manager, sink parameters and table actor

    A shallow embedding of [cdc/redo/manager.go] and of the stand-in data
    node of [cdc/processor/pipeline/actor_test.go], together with models of
    the sink-parameter layer and of the table actor, and the properties the
    specification states about them.

    Conventions.  Go's [uint64] timestamps and [int64] table ids are values
    of [Z]; slices are lists, indexed by [nat]; a Go map is a [gmap], and a
    map or interface value that may be [nil] is an [option].  A method that
    can fault at run time returns an [outcome]: either it returns normally
    with the receiver's new state, or it panics and leaves the receiver in
    the state reached at the faulting statement. *)

From stdpp Require Import base option list gmap fin_maps strings sorting.
From Stdlib Require Import ZArith Lia Ascii.

(** ** Shared vocabulary *)

(** Run-time faults of the Go program that the model distinguishes. *)
Inductive panic : Type :=
| NilDereference      (* method call through a nil interface or pointer *)
| NilMapAssignment    (* assignment to an entry of a nil map *)
| SearchExhausted.    (* the binary search ran out of iterations: shown unreachable *)

Inductive outcome (S A : Type) : Type :=
| Returned (s : S) (a : A)
| Panicked (s : S) (p : panic).
Arguments Returned {S A} s a.
Arguments Panicked {S A} s p.

Definition state_of {S A} (o : outcome S A) : S :=
  match o with Returned s _ => s | Panicked s _ => s end.

Definition returned {S A} (o : outcome S A) : bool :=
  match o with Returned _ _ => true | Panicked _ _ => false end.

(** Sequencing of two faulting computations on the same receiver. *)
Definition obind {S A B} (o : outcome S A) (k : S → A → outcome S B) : outcome S B :=
  match o with
  | Returned s a => k s a
  | Panicked s p => Panicked s p
  end.

(** ** sort.Search of the Go standard library

    [for i < j { h := int(uint(i+j) >> 1); if !f(h) { i = h + 1 } else { j = h } }].
    The loop is run on a counter that starts at [n]; [None] means the
    counter ran out, which [Search_total] excludes. *)
Fixpoint search_loop (fuel : nat) (f : nat → bool) (i j : nat) : option nat :=
  if (i <? j)%nat then
    match fuel with
    | O => None
    | S fuel' =>
        let h := ((i + j) / 2)%nat in
        if negb (f h) then search_loop fuel' f (h + 1) j
        else search_loop fuel' f i h
    end
  else Some i.

Definition Search (n : nat) (f : nat → bool) : option nat := search_loop n f 0 n.

(** [copy(dst, src)] where [dst = s[off:]]: overwrite [s] from offset [off]
    with as many elements of [src] as fit; returns the updated backing list. *)
Definition copy_at {A} (off : nat) (s src : list A) : list A :=
  take off s ++ take (length s - off) src ++ drop (off + length src) s.

Module Redo.

(** model.TableID is [int64] and model.Ts is [uint64]. *)
Abbreviation TableID := Z (only parsing).
Abbreviation Ts := Z (only parsing).

Definition MaxUint64 : Z := 18446744073709551615.

Definition consistentLevelNormal : string := "normal".
Definition consistentLevelEventual : string := "eventual".

Definition consistentStorageLocal : string := "local".
Definition consistentStorageS3 : string := "s3".
Definition consistentStorageBlackhole : string := "blackhole".

(** IsValidConsistentLevel checks whether a given consistent level is valid. *)
Definition IsValidConsistentLevel (level : string) : bool :=
  if String.eqb level consistentLevelNormal then true
  else if String.eqb level consistentLevelEventual then true
  else false.

(** IsValidConsistentStorage checks whether a given consistent storage is valid. *)
Definition IsValidConsistentStorage (storage : string) : bool :=
  if String.eqb storage consistentStorageLocal then true
  else if String.eqb storage consistentStorageS3 then true
  else if String.eqb storage consistentStorageBlackhole then true
  else false.

(** Values of Go's [error] that the manager produces or passes on. *)
Inductive error : Type :=
| ErrInvalidS3URI (cause : string)
| ErrConsistentStorage (storage : string)
| ErrWriter (msg : string).

(** The fields of [config.ConsistentConfig] that the manager reads. *)
Record ConsistentConfig : Type := {
  Level : string;
  Storage : string;
  MaxLogSize : Z;
  FlushIntervalInMs : Z;
  S3URI : string;
}.

(** ManagerOptions; the error channel is represented by the list of errors
    sent on it, kept by [run]. *)
Record ManagerOptions : Type := {
  EnableBgRunner : bool;
}.

(** What [NewManager] reads from its context and from the global server
    configuration. *)
Record Ctx : Type := {
  CaptureAddr : string;
  ChangefeedID : string;
  Now : Z;
  DataDir : string;
}.

(** writer.LogWriterConfig as filled in by [NewManager]. *)
Record LogWriterConfig (URL : Type) : Type := {
  Dir : string;
  CaptureID : string;
  ChangeFeedID : string;
  CreateTime : Z;
  CfgMaxLogSize : Z;
  CfgFlushIntervalInMs : Z;
  S3Storage : bool;
  CfgS3URI : option URL;
}.
Arguments Dir {URL}. Arguments CaptureID {URL}. Arguments ChangeFeedID {URL}.
Arguments CreateTime {URL}. Arguments CfgMaxLogSize {URL}.
Arguments CfgFlushIntervalInMs {URL}. Arguments S3Storage {URL}.
Arguments CfgS3URI {URL}.

(** The interface writer.RedoLogWriter, over the writer's own state [W].
    Each method returns the writer's next state with its Go results. *)
Class RedoLogWriter (W RedoRow RedoDDL : Type) : Type := {
  WriteLog : W → TableID → list RedoRow → W * (Ts * option error);
  FlushLog_w : W → TableID → Ts → W * option error;
  SendDDL : W → RedoDDL → W * option error;
  EmitResolvedTs : W → Ts → W * option error;
  EmitCheckpointTs : W → Ts → W * option error;
  GetCurrentResolvedTs : W → list TableID → W * (gmap Z Z * option error);
}.

(** ManagerImpl; [writer = None] is the nil interface, [rtsMap = None] the
    nil map, and a nil slice is the empty list. *)
Record ManagerImpl (W : Type) : Type := {
  enabled : bool;
  level : string;
  storage : string;
  writer : option W;
  minResolvedTs : Z;
  tableIDs : list Z;
  rtsMap : option (gmap Z Z);
}.
Arguments enabled {W}. Arguments level {W}. Arguments storage {W}.
Arguments writer {W}. Arguments minResolvedTs {W}. Arguments tableIDs {W}.
Arguments rtsMap {W}.

Definition set_writer {W} (m : ManagerImpl W) (w : option W) : ManagerImpl W :=
  {| enabled := enabled m; level := level m; storage := storage m; writer := w;
     minResolvedTs := minResolvedTs m; tableIDs := tableIDs m; rtsMap := rtsMap m |}.

Definition set_tableIDs {W} (m : ManagerImpl W) (ids : list Z) : ManagerImpl W :=
  {| enabled := enabled m; level := level m; storage := storage m; writer := writer m;
     minResolvedTs := minResolvedTs m; tableIDs := ids; rtsMap := rtsMap m |}.

Definition set_rtsMap {W} (m : ManagerImpl W) (r : option (gmap Z Z)) : ManagerImpl W :=
  {| enabled := enabled m; level := level m; storage := storage m; writer := writer m;
     minResolvedTs := minResolvedTs m; tableIDs := tableIDs m; rtsMap := r |}.

Definition set_minResolvedTs {W} (m : ManagerImpl W) (ts : Z) : ManagerImpl W :=
  {| enabled := enabled m; level := level m; storage := storage m; writer := writer m;
     minResolvedTs := ts; tableIDs := tableIDs m; rtsMap := rtsMap m |}.

(** The zero value [&ManagerImpl{enabled: false}]. *)
Definition NewDisabledManager {W} : ManagerImpl W :=
  {| enabled := false; level := ""; storage := ""; writer := None;
     minResolvedTs := 0; tableIDs := []; rtsMap := None |}.

Definition Enabled {W} (m : ManagerImpl W) : bool := enabled m.

(** GetMinResolvedTs: the atomic load. *)
Definition GetMinResolvedTs {W} (m : ManagerImpl W) : Z := minResolvedTs m.

(** The closure handed to [sort.Search] by AddTable and RemoveTable. *)
Definition not_below (ids : list Z) (tableID : Z) (i : nat) : bool :=
  (tableID <=? nth i ids 0)%Z.

(** AddTable adds a new table in redo log manager. *)
Definition AddTable {W} (m : ManagerImpl W) (tableID : TableID) (startTs : Ts)
  : outcome (ManagerImpl W) unit :=
  let ids := tableIDs m in
  match Search (length ids) (not_below ids tableID) with
  | None => Panicked m SearchExhausted
  | Some i =>
      if (i <? length ids)%nat && (nth i ids 0 =? tableID)%Z then
        Returned m tt
      else
        let ids' :=
          if (i =? length ids)%nat then ids ++ [tableID]
          else <[i := tableID]> (take (i + 1) ids ++ drop i ids) in
        let m1 := set_tableIDs m ids' in
        match rtsMap m1 with
        | None => Panicked m1 NilMapAssignment
        | Some r => Returned (set_rtsMap m1 (Some (<[tableID := startTs]> r))) tt
        end
  end.

(** RemoveTable removes a table from redo log manager; [delete] on a nil
    map does nothing. *)
Definition RemoveTable {W} (m : ManagerImpl W) (tableID : TableID)
  : outcome (ManagerImpl W) unit :=
  let ids := tableIDs m in
  match Search (length ids) (not_below ids tableID) with
  | None => Panicked m SearchExhausted
  | Some i =>
      if (i <? length ids)%nat && (nth i ids 0 =? tableID)%Z then
        let copied := copy_at i ids (drop (i + 1) ids) in
        let ids' := take (length copied - 1) copied in
        Returned (set_rtsMap (set_tableIDs m ids') (delete tableID <$> rtsMap m)) tt
      else
        Returned m tt
  end.

(** One iteration of [for tableID, rts := range rtsMap] in
    updateTableResolvedTs, on the pair (m.rtsMap, minResolvedTs). *)
Definition range_step (tableID rts : Z) (acc : gmap Z Z * Z) : gmap Z Z * Z :=
  (<[tableID := rts]> (acc.1), if (rts <? acc.2)%Z then rts else acc.2).

(** Collaborators outside the file: the converters of the redo package,
    the two writer constructors, [url.Parse], [filepath.Join] and
    [config.DefaultRedoDir]. *)
Class Collaborators (W Row RedoRow DDL RedoDDL URL : Type) : Type := {
  RowToRedo : Row → RedoRow;
  DDLToRedo : DDL → RedoDDL;
  NewBlackHoleWriter : W;
  NewLogWriter : Ctx → LogWriterConfig URL → W;
  url_Parse : string → URL + string;
  filepath_Join : string → string → string;
  DefaultRedoDir : string;
}.

Section manager.
Context {W Row RedoRow DDL RedoDDL URL : Type}.
Context `{!RedoLogWriter W RedoRow RedoDDL}.
Context `{!Collaborators W Row RedoRow DDL RedoDDL URL}.

(** EmitRowChangedEvents converts RowChangedEvents to RedoLogs, and sends
    to redo log writer. *)
Definition EmitRowChangedEvents (m : ManagerImpl W) (tableID : TableID) (rows : list Row)
  : outcome (ManagerImpl W) (option error) :=
  let logs := map RowToRedo rows in
  match writer m with
  | None => Panicked m NilDereference
  | Some w =>
      let '(w', (_, err)) := WriteLog w tableID logs in
      Returned (set_writer m (Some w')) err
  end.

(** FlushLog emits resolved ts of a single table. *)
Definition FlushLog (m : ManagerImpl W) (tableID : TableID) (resolvedTs : Ts)
  : outcome (ManagerImpl W) (option error) :=
  match writer m with
  | None => Panicked m NilDereference
  | Some w =>
      let '(w', err) := FlushLog_w w tableID resolvedTs in
      Returned (set_writer m (Some w')) err
  end.

(** EmitDDLEvent sends DDL event to redo log writer. *)
Definition EmitDDLEvent (m : ManagerImpl W) (ddl : DDL)
  : outcome (ManagerImpl W) (option error) :=
  match writer m with
  | None => Panicked m NilDereference
  | Some w =>
      let '(w', err) := SendDDL w (DDLToRedo ddl) in
      Returned (set_writer m (Some w')) err
  end.

(** FlushResolvedAndCheckpointTs flushes resolved-ts and checkpoint-ts to
    redo log writer. *)
Definition FlushResolvedAndCheckpointTs (m : ManagerImpl W) (resolvedTs checkpointTs : Ts)
  : outcome (ManagerImpl W) (option error) :=
  match writer m with
  | None => Panicked m NilDereference
  | Some w =>
      let '(w1, err) := EmitResolvedTs w resolvedTs in
      match err with
      | Some e => Returned (set_writer m (Some w1)) (Some e)
      | None =>
          let '(w2, err2) := EmitCheckpointTs w1 checkpointTs in
          Returned (set_writer m (Some w2)) err2
      end
  end.

(** updateTableResolvedTs reads rtsMap from redo log writer and calculates
    the minimum resolved ts of all maintained tables.  The loop body
    assigns into [m.rtsMap], so a non-empty report faults on a nil map. *)
Definition updateTableResolvedTs (m : ManagerImpl W)
  : outcome (ManagerImpl W) (option error) :=
  match writer m with
  | None => Panicked m NilDereference
  | Some w =>
      let '(w', (report, err)) := GetCurrentResolvedTs w (tableIDs m) in
      let m0 := set_writer m (Some w') in
      match err with
      | Some e => Returned m0 (Some e)
      | None =>
          match rtsMap m0 with
          | Some r =>
              let acc := map_fold range_step (r, MaxUint64) report in
              Returned (set_minResolvedTs (set_rtsMap m0 (Some acc.1)) acc.2) None
          | None =>
              if decide (report = ∅) then Returned (set_minResolvedTs m0 MaxUint64) None
              else Panicked m0 NilMapAssignment
          end
      end
  end.

(** The manager NewManager builds for a non-normal level around the
    writer [w]: [rtsMap] is made, [tableIDs] is the nil slice, and
    [minResolvedTs] is zero. *)
Definition enabled_manager (cfg : ConsistentConfig) (w : W) : ManagerImpl W :=
  {| enabled := true; level := Level cfg; storage := Storage cfg;
     writer := Some w; minResolvedTs := 0; tableIDs := [];
     rtsMap := Some ∅ |}.

(** The result of NewManager: a manager (with whether the background
    goroutine was started), an error, or a fault on a nil [opts]. *)
Inductive new_result : Type :=
| NewOk (m : ManagerImpl W) (bg : bool)
| NewErr (e : error)
| NewPanic (p : panic).

(** NewManager creates a new Manager. *)
Definition NewManager (ctx : Ctx) (cfg : option ConsistentConfig)
    (opts : option ManagerOptions) : new_result :=
  match cfg with
  | None => NewOk NewDisabledManager false
  | Some cfg =>
      if String.eqb (Level cfg) consistentLevelNormal then NewOk NewDisabledManager false
      else
        let finish (w : W) :=
          let m := enabled_manager cfg w in
          match opts with
          | None => NewPanic NilDereference
          | Some o => NewOk m (EnableBgRunner o)
          end in
        if String.eqb (Storage cfg) consistentStorageBlackhole then
          finish NewBlackHoleWriter
        else if String.eqb (Storage cfg) consistentStorageLocal
                || String.eqb (Storage cfg) consistentStorageS3 then
          let redoDir := filepath_Join (DataDir ctx) DefaultRedoDir in
          let s3 := String.eqb (Storage cfg) consistentStorageS3 in
          let writerCfg (uri : option URL) :=
            {| Dir := redoDir; CaptureID := CaptureAddr ctx;
               ChangeFeedID := ChangefeedID ctx; CreateTime := Now ctx;
               CfgMaxLogSize := MaxLogSize cfg;
               CfgFlushIntervalInMs := FlushIntervalInMs cfg;
               S3Storage := s3; CfgS3URI := uri |} in
          if s3 then
            match url_Parse (S3URI cfg) with
            | inr cause => NewErr (ErrInvalidS3URI cause)
            | inl s3URI => finish (NewLogWriter ctx (writerCfg (Some s3URI)))
            end
          else finish (NewLogWriter ctx (writerCfg None))
        else NewErr (ErrConsistentStorage (Storage cfg))
  end.

(** [run]: one turn of the select loop per element of [ticks]; [true] is a
    tick of the ticker, [false] is [ctx.Done()].  The second component is
    what was sent on the error channel. *)
Fixpoint run (ticks : list bool) (m : ManagerImpl W)
  : outcome (ManagerImpl W) (list error) :=
  match ticks with
  | [] => Returned m []
  | false :: _ => Returned m []
  | true :: rest =>
      obind (updateTableResolvedTs m) (λ m' err,
        match err with
        | Some e => Returned m' [e]
        | None => run rest m'
        end)
  end.

(** A call on the manager by one of its clients: the processor, the owner,
    or the ticker of the background loop. *)
Inductive call : Type :=
| CallEmitRowChangedEvents (tableID : TableID) (rows : list Row)
| CallFlushLog (tableID : TableID) (resolvedTs : Ts)
| CallEmitDDLEvent (ddl : DDL)
| CallFlushResolvedAndCheckpointTs (resolvedTs checkpointTs : Ts)
| CallAddTable (tableID : TableID) (startTs : Ts)
| CallRemoveTable (tableID : TableID)
| CallTick.

Definition no_error {S} (o : outcome S unit) : outcome S (option error) :=
  obind o (λ s _, Returned s None).

Definition exec_call (m : ManagerImpl W) (c : call)
  : outcome (ManagerImpl W) (option error) :=
  match c with
  | CallEmitRowChangedEvents t rows => EmitRowChangedEvents m t rows
  | CallFlushLog t rts => FlushLog m t rts
  | CallEmitDDLEvent ddl => EmitDDLEvent m ddl
  | CallFlushResolvedAndCheckpointTs r c => FlushResolvedAndCheckpointTs m r c
  | CallAddTable t s => no_error (AddTable m t s)
  | CallRemoveTable t => no_error (RemoveTable m t)
  | CallTick => updateTableResolvedTs m
  end.

(** The calls run in order; a fault ends the run in the faulting state. *)
Fixpoint exec (m : ManagerImpl W) (cs : list call) : outcome (ManagerImpl W) unit :=
  match cs with
  | [] => Returned m tt
  | c :: cs' => obind (exec_call m c) (λ m' _, exec m' cs')
  end.

(** What the writer reports to a tick that goes on to publish. *)
Definition report_of (m : ManagerImpl W) (c : call) : option (gmap Z Z) :=
  match c, writer m with
  | CallTick, Some w =>
      match (GetCurrentResolvedTs w (tableIDs m)).2 with
      | (report, None) => Some report
      | (_, Some _) => None
      end
  | _, _ => None
  end.

(** The observable history of a run: after each call that returns, the
    report it published (for a successful tick) and what GetMinResolvedTs
    returns from then until the next call. *)
Fixpoint trace (m : ManagerImpl W) (cs : list call) : list (option (gmap Z Z) * Z) :=
  match cs with
  | [] => []
  | c :: cs' =>
      match exec_call m c with
      | Returned m' _ => (report_of m c, GetMinResolvedTs m') :: trace m' cs'
      | Panicked _ _ => []
      end
  end.

End manager.
Arguments call : clear implicits.

(** The calls that touch the table bookkeeping only. *)
Definition is_table_call {Row DDL} (c : call Row DDL) : bool :=
  match c with
  | CallAddTable _ _ | CallRemoveTable _ => true
  | _ => false
  end.

(** The reports published during a run, oldest first. *)
Definition reports (tr : list (option (gmap Z Z) * Z)) : list (gmap Z Z) :=
  omap fst tr.

(** The values GetMinResolvedTs returns from the first publication on. *)
Fixpoint published_values (tr : list (option (gmap Z Z) * Z)) : list Z :=
  match tr with
  | [] => []
  | (None, _) :: tr' => published_values tr'
  | (Some _, v) :: tr' => v :: map snd tr'
  end.

(** The minimum a tick computes from a report. *)
Definition report_min (report : gmap Z Z) : Z :=
  (map_fold range_step (∅, MaxUint64) report).2.

(** [dominated r r']: every table of the later report [r'] was already in
    the earlier report [r], with a timestamp that is not larger. *)
Definition dominated (r r' : gmap Z Z) : Prop :=
  map_Forall (λ k v', match r !! k with Some v => (v ≤ v')%Z | None => False end) r'.

#[export] Instance dominated_dec (r r' : gmap Z Z) : Decision (dominated r r').
Proof.
  unfold dominated. apply map_Forall_dec. intros k v'. destruct (r !! k); apply _.
Defined.

(** Consecutive elements of a list are related. *)
Fixpoint chain {A} (R : A → A → Prop) (l : list A) : Prop :=
  match l with
  | x :: (y :: _) as t => R x y ∧ chain R t
  | _ => True
  end.

#[export] Instance chain_dominated_dec (l : list (gmap Z Z)) : Decision (chain dominated l).
Proof.
  induction l as [|x [|y l] IH]; [left; exact I | left; exact I |].
  cbn [chain]. apply and_dec; [apply _ | exact IH].
Defined.

(** [no_regress r r']: the later report [r'] holds no timestamp below the
    minimum of the earlier report [r]; its tables may be old or new. *)
Definition no_regress (r r' : gmap Z Z) : Prop :=
  map_Forall (λ _ v', (report_min r ≤ v')%Z) r'.

#[export] Instance no_regress_dec (r r' : gmap Z Z) : Decision (no_regress r r').
Proof. unfold no_regress. apply map_Forall_dec. intros k v'. apply _. Defined.

#[export] Instance chain_no_regress_dec (l : list (gmap Z Z)) : Decision (chain no_regress l).
Proof.
  induction l as [|x [|y l] IH]; [left; exact I | left; exact I |].
  cbn [chain]. apply and_dec; [apply _ | exact IH].
Defined.

(** The invariant of the table bookkeeping: [rtsMap] is allocated, its keys
    are the elements of [tableIDs], and [tableIDs] is strictly ascending. *)
Definition tables_inv {W} (m : ManagerImpl W) : Prop :=
  ∃ r, rtsMap m = Some r
       ∧ dom r = list_to_set (tableIDs m)
       ∧ StronglySorted Z.lt (tableIDs m).

(** Modelled from the spec: a writer behind the RedoLogWriter interface
    (the writer package is not part of the snapshot).  FlushLog records the
    resolved timestamp of the named table, and GetCurrentResolvedTs reports
    the current resolved timestamp of every table id it is asked about and
    knows; everything else is accepted and dropped, as the blackhole
    writer does. *)
Definition report_for (w : gmap Z Z) (ids : list Z) : gmap Z Z :=
  foldr (λ t acc, match w !! t with Some v => <[t := v]> acc | None => acc end) ∅ ids.

#[export] Instance tableWriter : RedoLogWriter (gmap Z Z) unit unit := {|
  WriteLog w _ _ := (w, (0%Z, None));
  FlushLog_w w t rts := (<[t := rts]> w, None);
  SendDDL w _ := (w, None);
  EmitResolvedTs w _ := (w, None);
  EmitCheckpointTs w _ := (w, None);
  GetCurrentResolvedTs w ids := (w, (report_for w ids, None));
|}.

(** Stand-ins for the collaborators, for running scenarios; the theorems
    are stated for every instance.  Of [url.Parse] only the refusal of a
    leading colon (missing protocol scheme) is kept, the empty string
    parses as in Go; of [filepath.Join] the dropping of empty elements and
    the separator, without the cleaning of the result.  The scenarios use
    them on inputs where this is what Go does. *)
#[export] Instance tableWriter_collaborators
  : Collaborators (gmap Z Z) unit unit unit unit string := {|
  RowToRedo r := r;
  DDLToRedo d := d;
  NewBlackHoleWriter := ∅;
  NewLogWriter _ _ := ∅;
  url_Parse s :=
    match s with
    | String ":" _ => inr "missing protocol scheme"%string
    | _ => inl s
    end;
  filepath_Join a b :=
    if String.eqb a "" then b
    else if String.eqb b "" then a
    else a +:+ "/" +:+ b;
  DefaultRedoDir := "redo";
|}.

(** Inputs of the scenarios: a context, an enabled configuration on the
    blackhole storage, and the manager NewManager builds from them around
    a scenario writer [w]. *)
Definition scenario_ctx : Ctx :=
  {| CaptureAddr := "127.0.0.1:8300"; ChangefeedID := "cf-1"; Now := 0;
     DataDir := "/var/lib/cdc" |}.

Definition scenario_cfg : ConsistentConfig :=
  {| Level := "eventual"; Storage := "blackhole"; MaxLogSize := 64;
     FlushIntervalInMs := 1000; S3URI := "" |}.

Definition scenario_opts : ManagerOptions := {| EnableBgRunner := false |}.

Definition scenario_manager (w : gmap Z Z) : ManagerImpl (gmap Z Z) :=
  enabled_manager scenario_cfg w.

(** The same manager once tables 1 and 3 were added, started at 100 and
    150. *)
Definition scenario_tables (w : gmap Z Z) : ManagerImpl (gmap Z Z) :=
  {| enabled := true; level := "eventual"; storage := "blackhole";
     writer := Some w; minResolvedTs := 0; tableIDs := [1; 3]%Z;
     rtsMap := Some {[1 := 100; 3 := 150]}%Z |}.

(** *** Vocabulary for statements about runs of calls *)

(** The table a bookkeeping call names. *)
Definition table_of {Row DDL} (c : call Row DDL) : option Z :=
  match c with
  | CallAddTable t _ | CallRemoveTable t => Some t
  | _ => None
  end.

Definition is_tick {Row DDL} (c : call Row DDL) : bool :=
  match c with
  | CallTick => true
  | _ => false
  end.

(** The calls that only go through to [m.writer]. *)
Definition is_writer_call {Row DDL} (c : call Row DDL) : bool :=
  match c with
  | CallEmitRowChangedEvents _ _ | CallFlushLog _ _ | CallEmitDDLEvent _
  | CallFlushResolvedAndCheckpointTs _ _ => true
  | _ => false
  end.

(** What the bookkeeping keeps under every writer: the writer and [rtsMap]
    are there, [tableIDs] is strictly ascending, and every tracked id has an
    entry in [rtsMap]. *)
Definition tables_tracked {W} (m : ManagerImpl W) : Prop :=
  ∃ r, rtsMap m = Some r
       ∧ is_Some (writer m)
       ∧ list_to_set (tableIDs m) ⊆ dom r
       ∧ StronglySorted Z.lt (tableIDs m).

(** A writer whose GetCurrentResolvedTs names no table beside those it was
    asked about. *)
Definition reports_requested (W RedoRow RedoDDL : Type)
    `{!RedoLogWriter W RedoRow RedoDDL} : Prop :=
  ∀ (w : W) (ids : list Z),
    dom (GetCurrentResolvedTs w ids).2.1 ⊆ (list_to_set ids : gset Z).

(** Two managers that differ at most in what an allocated [rtsMap] holds. *)
Definition same_but_rtsMap {W} (m1 m2 : ManagerImpl W) : Prop :=
  set_rtsMap m1 None = set_rtsMap m2 None
  ∧ (is_Some (rtsMap m1) ↔ is_Some (rtsMap m2)).

(** Two outcomes that agree on everything a caller can see, and on the
    receiver up to the contents of [rtsMap]. *)
Definition same_outcome {W A} (o1 o2 : outcome (ManagerImpl W) A) : Prop :=
  match o1, o2 with
  | Returned m1 a1, Returned m2 a2 => a1 = a2 ∧ same_but_rtsMap m1 m2
  | Panicked m1 p1, Panicked m2 p2 => p1 = p2 ∧ same_but_rtsMap m1 m2
  | _, _ => False
  end.

End Redo.

(** ** Results with an error *)

Inductive result (E A : Type) : Type :=
| Ok (a : A)
| Err (e : E).
Arguments Ok {E A} a.
Arguments Err {E A} e.

Definition rbind {E A B} (r : result E A) (k : A → result E B) : result E B :=
  match r with
  | Ok a => k a
  | Err e => Err e
  end.

Definition is_err {E A} (r : result E A) : bool :=
  match r with Err _ => true | Ok _ => false end.

Notation "x ←? r ; k" := (rbind r (λ x, k))
  (at level 20, r at level 100, k at level 200, only parsing).

(** ** Strings: what the sink layer needs of strconv, strings and net/url *)

Definition dquote : string := String "034"%char EmptyString.

Definition digit_of (c : ascii) : option Z :=
  let n := Z.of_nat (nat_of_ascii c) in
  if (48 <=? n)%Z && (n <=? 57)%Z then Some (n - 48)%Z else None.

Fixpoint digits_value (acc : Z) (s : string) : option Z :=
  match s with
  | EmptyString => Some acc
  | String c s' =>
      match digit_of c with
      | Some d => digits_value (10 * acc + d)%Z s'
      | None => None
      end
  end.

(** strconv.Atoi: an optional sign, then decimal digits, within int64. *)
Definition Atoi (s : string) : option Z :=
  let in_range (v : Z) :=
    if (- 2 ^ 63 <=? v)%Z && (v <? 2 ^ 63)%Z then Some v else None in
  match s with
  | EmptyString => None
  | String c rest =>
      if Ascii.eqb c "-"%char then
        match rest with
        | EmptyString => None
        | _ => v ← digits_value 0 rest; in_range (- v)%Z
        end
      else if Ascii.eqb c "+"%char then
        match rest with
        | EmptyString => None
        | _ => digits_value 0 rest ≫= in_range
        end
      else digits_value 0 s ≫= in_range
  end.

(** strconv.ParseBool. *)
Definition ParseBool (s : string) : option bool :=
  if bool_decide (s ∈ ["1"; "t"; "T"; "TRUE"; "true"; "True"]) then Some true
  else if bool_decide (s ∈ ["0"; "f"; "F"; "FALSE"; "false"; "False"]) then Some false
  else None.

Fixpoint drop_digits (s : string) : string :=
  match s with
  | String c s' => if digit_of c is Some _ then drop_digits s' else s
  | EmptyString => EmptyString
  end.

(** A duration as the URI writes it: digits, then one of the units. *)
Definition is_duration (s : string) : bool :=
  match s with
  | String c _ =>
      if digit_of c is Some _ then bool_decide (drop_digits s ∈ ["ns"; "ms"; "s"; "m"; "h"])
      else false
  | EmptyString => false
  end.

Fixpoint has_prefix (p s : string) : bool :=
  match p, s with
  | EmptyString, _ => true
  | String a p', String b s' => Ascii.eqb a b && has_prefix p' s'
  | String _ _, EmptyString => false
  end.

(** strings.Contains. *)
Fixpoint contains (s sub : string) : bool :=
  has_prefix sub s
  || match s with
     | EmptyString => false
     | String _ s' => contains s' sub
     end.

Definition hex_digit (n : nat) : ascii :=
  nth n (String.list_ascii_of_string "0123456789ABCDEF") "0"%char.

(** url.QueryEscape on one byte: letters, digits and [-_.~] stay, a space
    becomes [+], anything else becomes [%XX]. *)
Definition escape_byte (c : ascii) : string :=
  let n := nat_of_ascii c in
  if ((48 <=? n) && (n <=? 57)) || ((65 <=? n) && (n <=? 90))
     || ((97 <=? n) && (n <=? 122))
     || bool_decide (c ∈ ["-"; "_"; "."; "~"]%char)
  then String c EmptyString
  else if Ascii.eqb c " "%char then "+"
  else String "%"%char (String (hex_digit (n / 16)) (String (hex_digit (n mod 16)) EmptyString)).

Fixpoint QueryEscape (s : string) : string :=
  match s with
  | EmptyString => EmptyString
  | String c s' => escape_byte c +:+ QueryEscape s'
  end.

Module Sink.

(** The sink parameter layer.  The snapshot holds its tests only
    ([cdc/sink/mysql_params_test.go]); the parameter record, its defaults,
    Clone, parseSinkURIToParams, generateDSNByParams and checkTiDBVariable
    are modelled from the specification, and agree with what the tests
    expect. *)

(** Modelled from the spec: the default values of the sink parameters
    (the constants are declared outside the snapshot). *)
Definition DefaultWorkerCount : Z := 16.
Definition DefaultMaxTxnRow : Z := 256.
Definition defaultTiDBTxnMode : string := "optimistic".
Definition defaultBatchReplaceEnabled : bool := true.
Definition defaultBatchReplaceSize : Z := 20.
Definition defaultReadTimeout : string := "2m".
Definition defaultWriteTimeout : string := "2m".
Definition defaultDialTimeout : string := "2s".
Definition defaultSafeMode : bool := false.

(** Modelled from the spec: the sinkParams record (declared outside the
    snapshot), with the fields the specification lists and the tests
    name.  Durations are kept as the URI writes them. *)
Record sinkParams : Type := {
  workerCount : Z;
  maxTxnRow : Z;
  tidbTxnMode : string;
  changefeedID : string;
  captureAddr : string;
  batchReplaceEnabled : bool;
  batchReplaceSize : Z;
  readTimeout : string;
  writeTimeout : string;
  dialTimeout : string;
  timezone : string;
  tlsMaterial : option (string * string * string);
  safeMode : bool;
}.

#[export] Instance sinkParams_eq_dec : EqDecision sinkParams.
Proof. solve_decision. Defined.

(** Modelled from the spec: the value behind the package variable
    [defaultParams]; the fields the specification gives no default for
    hold Go's zero values. *)
Definition defaultParamsValue : sinkParams :=
  {| workerCount := DefaultWorkerCount;
     maxTxnRow := DefaultMaxTxnRow;
     tidbTxnMode := defaultTiDBTxnMode;
     changefeedID := EmptyString;
     captureAddr := EmptyString;
     batchReplaceEnabled := defaultBatchReplaceEnabled;
     batchReplaceSize := defaultBatchReplaceSize;
     readTimeout := defaultReadTimeout;
     writeTimeout := defaultWriteTimeout;
     dialTimeout := defaultDialTimeout;
     timezone := EmptyString;
     tlsMaterial := None;
     safeMode := defaultSafeMode |}.

Definition set_changefeedID (v : string) (p : sinkParams) : sinkParams :=
  {| workerCount := workerCount p; maxTxnRow := maxTxnRow p;
     tidbTxnMode := tidbTxnMode p; changefeedID := v; captureAddr := captureAddr p;
     batchReplaceEnabled := batchReplaceEnabled p;
     batchReplaceSize := batchReplaceSize p; readTimeout := readTimeout p;
     writeTimeout := writeTimeout p; dialTimeout := dialTimeout p;
     timezone := timezone p; tlsMaterial := tlsMaterial p; safeMode := safeMode p |}.

Definition set_batchReplaceEnabled (v : bool) (p : sinkParams) : sinkParams :=
  {| workerCount := workerCount p; maxTxnRow := maxTxnRow p;
     tidbTxnMode := tidbTxnMode p; changefeedID := changefeedID p;
     captureAddr := captureAddr p; batchReplaceEnabled := v;
     batchReplaceSize := batchReplaceSize p; readTimeout := readTimeout p;
     writeTimeout := writeTimeout p; dialTimeout := dialTimeout p;
     timezone := timezone p; tlsMaterial := tlsMaterial p; safeMode := safeMode p |}.

Definition set_maxTxnRow (v : Z) (p : sinkParams) : sinkParams :=
  {| workerCount := workerCount p; maxTxnRow := v;
     tidbTxnMode := tidbTxnMode p; changefeedID := changefeedID p;
     captureAddr := captureAddr p; batchReplaceEnabled := batchReplaceEnabled p;
     batchReplaceSize := batchReplaceSize p; readTimeout := readTimeout p;
     writeTimeout := writeTimeout p; dialTimeout := dialTimeout p;
     timezone := timezone p; tlsMaterial := tlsMaterial p; safeMode := safeMode p |}.

Definition set_timezone (v : string) (p : sinkParams) : sinkParams :=
  {| workerCount := workerCount p; maxTxnRow := maxTxnRow p;
     tidbTxnMode := tidbTxnMode p; changefeedID := changefeedID p;
     captureAddr := captureAddr p; batchReplaceEnabled := batchReplaceEnabled p;
     batchReplaceSize := batchReplaceSize p; readTimeout := readTimeout p;
     writeTimeout := writeTimeout p; dialTimeout := dialTimeout p;
     timezone := v; tlsMaterial := tlsMaterial p; safeMode := safeMode p |}.

(** Modelled from the spec: the parameter records live behind pointers,
    as [*sinkParams] in the tests: a heap of cells and the next free
    address.  The package variable [defaultParams] is the pointer 0 of the
    initial heap. *)
Record heap : Type := {
  cells : gmap nat sinkParams;
  fresh : nat;
}.

Definition defaultParams : nat := 0.

Definition initial_heap : heap :=
  {| cells := {[defaultParams := defaultParamsValue]}; fresh := 1 |}.

(** Addresses in use lie below the next free one. *)
Definition heap_wf (h : heap) : Prop :=
  ∀ p v, cells h !! p = Some v → p < fresh h.

(** Modelled from the spec: Clone produces a deep copy.  Every field of
    the record is a value, so the copy of the record into a new cell is
    one; a nil receiver has no copy. *)
Definition Clone (h : heap) (s : nat) : option (nat * heap) :=
  v ← cells h !! s;
  Some (fresh h, {| cells := <[fresh h := v]> (cells h); fresh := S (fresh h) |}).

(** [p.field = v]: an assignment through the pointer [p]. *)
Definition assign (h : heap) (p : nat) (f : sinkParams → sinkParams) : option heap :=
  v ← cells h !! p;
  Some {| cells := <[p := f v]> (cells h); fresh := fresh h |}.

(** The body of TestSinkParamsClone up to its assertions: the two
    pointers and the heap they point into. *)
Definition clone_isolation_run : option (nat * nat * heap) :=
  '(param1, h1) ← Clone initial_heap defaultParams;
  '(param2, h2) ← Clone h1 param1;
  h3 ← assign h2 param2 (set_changefeedID "123");
  h4 ← assign h3 param2 (set_batchReplaceEnabled false);
  h5 ← assign h4 param2 (set_maxTxnRow 1);
  Some (param1, param2, h5).

(** *** The sink URI *)

(** A parsed [url.URL] of the Go standard library: the scheme, and the
    query as the list of its key=value pairs in the order written. *)
Record URL : Type := {
  Scheme : string;
  RawQuery : list (string * string);
}.

(** [Query().Get(key)], with [None] when the key is absent. *)
Fixpoint query_get (q : list (string * string)) (key : string) : option string :=
  match q with
  | [] => None
  | (k, v) :: q' => if String.eqb k key then Some v else query_get q' key
  end.

Inductive sink_error : Type :=
| ErrMySQLConnectionError (msg : string)
| ErrInvalidConfig (msg : string).

(** The names under which the options map carries the changefeed id and
    the capture address; the specification fixes no spelling, any two
    distinct keys do. *)
Definition OptChangefeedID : string := "_changefeed_id".
Definition OptCaptureAddr : string := "_capture_addr".

(** Modelled from the spec: the rows of the parse table.  An integer
    parameter is an integer of at least 1, a boolean one is a boolean, a
    duration is digits and a unit, the transaction mode is optimistic or
    pessimistic; a key that is absent takes the default, a value that
    fails its validation is an error. *)
Definition int_param (q : list (string * string)) (key : string) (dflt : Z)
  : result sink_error Z :=
  match query_get q key with
  | None => Ok dflt
  | Some s =>
      match Atoi s with
      | Some c => if (1 <=? c)%Z then Ok c else Err (ErrInvalidConfig key)
      | None => Err (ErrInvalidConfig key)
      end
  end.

Definition bool_param (q : list (string * string)) (key : string) (dflt : bool)
  : result sink_error bool :=
  match query_get q key with
  | None => Ok dflt
  | Some s =>
      match ParseBool s with
      | Some b => Ok b
      | None => Err (ErrInvalidConfig key)
      end
  end.

Definition duration_param (q : list (string * string)) (key : string) (dflt : string)
  : result sink_error string :=
  match query_get q key with
  | None => Ok dflt
  | Some s => if is_duration s then Ok s else Err (ErrInvalidConfig key)
  end.

Definition txn_mode_param (q : list (string * string)) : result sink_error string :=
  match query_get q "tidb-txn-mode" with
  | None => Ok defaultTiDBTxnMode
  | Some s =>
      if String.eqb s "optimistic" || String.eqb s "pessimistic" then Ok s
      else Err (ErrInvalidConfig "tidb-txn-mode")
  end.

(** Modelled from the spec: time-zone.  An empty value gives the empty
    string, a missing key gives UTC in double quotes, any other value is
    put in double quotes. *)
Definition timezone_param (q : list (string * string)) : string :=
  match query_get q "time-zone" with
  | Some s => if String.eqb s EmptyString then EmptyString else dquote +:+ s +:+ dquote
  | None => dquote +:+ "UTC" +:+ dquote
  end.

(** Modelled from the spec: ssl-ca, ssl-cert and ssl-key come together or
    not at all. *)
Definition tls_param (q : list (string * string))
  : result sink_error (option (string * string * string)) :=
  match query_get q "ssl-ca", query_get q "ssl-cert", query_get q "ssl-key" with
  | None, None, None => Ok None
  | Some ca, Some cert, Some key => Ok (Some (ca, cert, key))
  | _, _, _ => Err (ErrInvalidConfig "ssl")
  end.

(** Modelled from the spec: parseSinkURIToParams, by the table of
    recognized query keys.  A value that fails its validation fails the
    parse; keys that are not recognized are ignored. *)
Definition parseSinkURIToParams (sinkURI : option URL) (opts : gmap string string)
  : result sink_error sinkParams :=
  match sinkURI with
  | None => Err (ErrMySQLConnectionError "empty URL")
  | Some uri =>
      if negb (String.eqb (Scheme uri) "mysql" || String.eqb (Scheme uri) "tidb")
      then Err (ErrMySQLConnectionError "unsupported scheme")
      else
        let q := RawQuery uri in
        wc ←? int_param q "worker-count" DefaultWorkerCount;
        mtr ←? int_param q "max-txn-row" DefaultMaxTxnRow;
        mode ←? txn_mode_param q;
        tlsm ←? tls_param q;
        bre ←? bool_param q "batch-replace-enable" defaultBatchReplaceEnabled;
        brs ←? int_param q "batch-replace-size" defaultBatchReplaceSize;
        sm ←? bool_param q "safe-mode" defaultSafeMode;
        rt ←? duration_param q "read-timeout" defaultReadTimeout;
        wt ←? duration_param q "write-timeout" defaultWriteTimeout;
        dt ←? duration_param q "timeout" defaultDialTimeout;
        Ok {| workerCount := wc; maxTxnRow := mtr; tidbTxnMode := mode;
              changefeedID := default EmptyString (opts !! OptChangefeedID);
              captureAddr := default EmptyString (opts !! OptCaptureAddr);
              batchReplaceEnabled := bre; batchReplaceSize := brs;
              readTimeout := rt; writeTimeout := wt; dialTimeout := dt;
              timezone := timezone_param q; tlsMaterial := tlsm; safeMode := sm |}
  end.

(** *** The driver DSN *)

(** The part of the MySQL driver's Config that the sink layer fills in. *)
Record Config : Type := {
  User : string;
  Passwd : string;
  Net : string;
  Addr : string;
  DBName : string;
  Params : gmap string string;
}.

Definition with_Params (cfg : Config) (ps : gmap string string) : Config :=
  {| User := User cfg; Passwd := Passwd cfg; Net := Net cfg; Addr := Addr cfg;
     DBName := DBName cfg; Params := ps |}.

Definition key_le (a b : string * string) : Prop := String.leb a.1 b.1 = true.

#[export] Instance key_le_dec (a b : string * string) : Decision (key_le a b).
Proof. unfold key_le. apply _. Defined.

Definition render_param (kv : string * string) : string :=
  kv.1 +:+ "=" +:+ QueryEscape kv.2.

Fixpoint join_amp (l : list string) : string :=
  match l with
  | [] => EmptyString
  | [x] => x
  | x :: l' => x +:+ "&" +:+ join_amp l'
  end.

(** FormatDSN: [user:passwd@net(addr)/dbname?k=v&...], the parameters in
    the order of their keys, each value query-escaped. *)
Definition FormatDSN (cfg : Config) : string :=
  (if String.eqb (User cfg) EmptyString then EmptyString
   else User cfg
        +:+ (if String.eqb (Passwd cfg) EmptyString then EmptyString
             else ":" +:+ Passwd cfg)
        +:+ "@")
  +:+ (if String.eqb (Net cfg) EmptyString then EmptyString
       else Net cfg
            +:+ (if String.eqb (Addr cfg) EmptyString then EmptyString
                 else "(" +:+ Addr cfg +:+ ")"))
  +:+ "/" +:+ DBName cfg
  +:+ match merge_sort key_le (map_to_list (Params cfg)) with
      | [] => EmptyString
      | ps => "?" +:+ join_amp (render_param <$> ps)
      end.

(** What a [show session variables like ...] query comes back with. *)
Inductive probe : Type :=
| ProbeRow (value : string)
| ProbeNoRows
| ProbeError (msg : string).

(** Modelled from the spec: checkTiDBVariable, as TestCheckTiDBVariable
    exercises it: a row gives the default value asked for, no row gives the
    empty string without error, any other failure is an error. *)
Definition checkTiDBVariable (db : string → probe) (variableName defaultValue : string)
  : result sink_error string :=
  match db variableName with
  | ProbeRow _ => Ok defaultValue
  | ProbeNoRows => Ok EmptyString
  | ProbeError msg => Err (ErrMySQLConnectionError msg)
  end.

(** Modelled from the spec: the assignments generateDSNByParams makes
    into the parameters of the DSN.  tidb_txn_mode, readTimeout,
    writeTimeout and allow_auto_random_explicit_insert=1 are set always,
    time_zone when the timezone parameter is not empty, and timeout when
    the user provided one.  The record keeps no trace of the URI beside
    its fields, so a provided timeout is one that differs from the default
    the parser fills in. *)
Definition dsn_params (dsnCfg : Config) (params : sinkParams) : gmap string string :=
  let ps := Params dsnCfg in
  let ps := if String.eqb (timezone params) EmptyString then ps
            else <["time_zone" := timezone params]> ps in
  let ps := <["readTimeout" := readTimeout params]> ps in
  let ps := <["writeTimeout" := writeTimeout params]> ps in
  let ps := if String.eqb (dialTimeout params) defaultDialTimeout then ps
            else <["timeout" := dialTimeout params]> ps in
  let ps := <["allow_auto_random_explicit_insert" := "1"]> ps in
  <["tidb_txn_mode" := tidbTxnMode params]> ps.

(** Modelled from the spec: generateDSNByParams.  It probes the downstream
    for allow_auto_random_explicit_insert, passes a connection error on,
    and otherwise renders the base DSN with the parameters above. *)
Definition generateDSNByParams (dsnCfg : Config) (params : sinkParams)
    (db : string → probe) : result sink_error string :=
  _ ←? checkTiDBVariable db "allow_auto_random_explicit_insert" "1";
  Ok (FormatDSN (with_Params dsnCfg (dsn_params dsnCfg params))).

(** The inputs of the tests: the base DSN
    [root:123456@tcp(127.0.0.1:4000)/] as ParseDSN returns it, a database
    that answers every probe with a row, and the sink URIs. *)
Definition test_dsn : Config :=
  {| User := "root"; Passwd := "123456"; Net := "tcp"; Addr := "127.0.0.1:4000";
     DBName := EmptyString; Params := ∅ |}.

Definition mockTestDB : string → probe := λ _, ProbeRow "1".

Definition mysql_uri (q : list (string * string)) : URL :=
  {| Scheme := "mysql"; RawQuery := q |}.

End Sink.

Module Pipeline.

(** The table actor and the actor system.  The snapshot holds only the
    test that spawns an actor and stops it
    ([cdc/processor/pipeline/actor_test.go]); the actor, its mailbox
    messages, the router and the system are modelled from the
    specification.  Scheduling is the polls themselves: one poll of an
    actor takes a bounded batch from its mailbox and handles it, and
    nothing else runs the actor. *)

(** Modelled from the spec: the stages of a table pipeline. *)
Inductive stage : Type := PullerNode | SorterNode | CyclicNode | SinkNode.

(** Modelled from the spec: the messages of an actor's mailbox. *)
Inductive Message : Type :=
| BarrierMessage (barrierTs : Z)
| StopMessage
| TickMessage
| DataMessage (commitTs : Z).

(** Modelled from the spec: the results of Router.Send. *)
Inductive SendResult : Type :=
| Delivered
| MailboxFull
| NoSuchActor
| Stopped.

(** Modelled from the spec: the state a table actor owns.  [sinkBarrierTs] is the barrier last
    forwarded to the sink stage, [closedStages] the stages closed so far
    in the order of closing, [handled] the number of messages processed. *)
Record tableActor : Type := {
  tableID : Z;
  tableName : string;
  startTs : Z;
  markTableID : Z;
  stages : list stage;
  stopped : bool;
  barrierTs : Z;
  sinkBarrierTs : Z;
  closedStages : list stage;
  handled : nat;
}.

(** Modelled from the spec: NewTableActor builds puller, sorter, the
    cyclic stage when the mark table is set and cyclic replication is on,
    then the sink; the barrier starts at the start timestamp. *)
Definition NewTableActor (tableID : Z) (tableName : string) (startTs markTableID : Z)
    (cyclicEnabled : bool) : tableActor :=
  {| tableID := tableID; tableName := tableName; startTs := startTs;
     markTableID := markTableID;
     stages := [PullerNode; SorterNode]
               ++ (if negb (markTableID =? 0)%Z && cyclicEnabled then [CyclicNode] else [])
               ++ [SinkNode];
     stopped := false; barrierTs := startTs; sinkBarrierTs := startTs;
     closedStages := []; handled := 0 |}.

(** Modelled from the spec: the handling of one message.  A stopped actor
    processes nothing.  A barrier that does
    not go below the current one is recorded and forwarded to the sink, a
    lower one is ignored; Stop sets [stopped] and closes the stages in
    reverse order. *)
Definition handle (a : tableActor) (msg : Message) : tableActor :=
  if stopped a then a
  else
    match msg with
    | BarrierMessage ts =>
        if (ts <? barrierTs a)%Z then
          {| tableID := tableID a; tableName := tableName a; startTs := startTs a;
             markTableID := markTableID a; stages := stages a; stopped := false;
             barrierTs := barrierTs a; sinkBarrierTs := sinkBarrierTs a;
             closedStages := closedStages a; handled := S (handled a) |}
        else
          {| tableID := tableID a; tableName := tableName a; startTs := startTs a;
             markTableID := markTableID a; stages := stages a; stopped := false;
             barrierTs := ts; sinkBarrierTs := ts;
             closedStages := closedStages a; handled := S (handled a) |}
    | StopMessage =>
        {| tableID := tableID a; tableName := tableName a; startTs := startTs a;
           markTableID := markTableID a; stages := stages a; stopped := true;
           barrierTs := barrierTs a; sinkBarrierTs := sinkBarrierTs a;
           closedStages := reverse (stages a); handled := S (handled a) |}
    | TickMessage | DataMessage _ =>
        {| tableID := tableID a; tableName := tableName a; startTs := startTs a;
           markTableID := markTableID a; stages := stages a; stopped := false;
           barrierTs := barrierTs a; sinkBarrierTs := sinkBarrierTs a;
           closedStages := closedStages a; handled := S (handled a) |}
    end.

(** Modelled from the spec: one poll of an actor on a batch of messages,
    in the order sent. *)
Definition Poll (a : tableActor) (batch : list Message) : tableActor :=
  foldl handle a batch.

(** Modelled from the spec: the actor system.  Actor objects live at
    addresses and stay there after they leave the router (the test keeps
    its pointer to the actor); the router maps an actor id to the address
    of its actor and to its mailbox. *)
Record System : Type := {
  mailboxCap : nat;
  batchSize : nat;
  running : bool;
  objects : gmap nat tableActor;
  nextObject : nat;
  router : gmap Z (nat * list Message);
}.

Definition NewSystem (mailboxCap batchSize : nat) : System :=
  {| mailboxCap := mailboxCap; batchSize := batchSize; running := true;
     objects := ∅; nextObject := 0; router := ∅ |}.

(** Modelled from the spec: Spawn registers a new actor under [id] and
    returns its address; an id that is still registered is refused. *)
Definition Spawn (sys : System) (id : Z) (a : tableActor) : option nat * System :=
  match router sys !! id with
  | Some _ => (None, sys)
  | None =>
      (Some (nextObject sys),
       {| mailboxCap := mailboxCap sys; batchSize := batchSize sys;
          running := running sys;
          objects := <[nextObject sys := a]> (objects sys);
          nextObject := S (nextObject sys);
          router := <[id := (nextObject sys, [])]> (router sys) |})
  end.

(** Modelled from the spec: Router.Send.  A stopped system refuses, an
    unknown id has no actor, a full mailbox refuses, otherwise the message
    is put at the end of the mailbox. *)
Definition Send (sys : System) (id : Z) (msg : Message) : SendResult * System :=
  if negb (running sys) then (Stopped, sys)
  else
    match router sys !! id with
    | None => (NoSuchActor, sys)
    | Some (addr, mailbox) =>
        if (length mailbox <? mailboxCap sys)%nat then
          (Delivered,
           {| mailboxCap := mailboxCap sys; batchSize := batchSize sys;
              running := running sys; objects := objects sys;
              nextObject := nextObject sys;
              router := <[id := (addr, mailbox ++ [msg])]> (router sys) |})
        else (MailboxFull, sys)
    end.

(** Modelled from the spec: a worker polls the actor registered under
    [id].  It hands the actor at most [batchSize] messages from the head of
    the mailbox, and takes the actor out of the router when it has
    stopped. *)
Definition poll_actor (sys : System) (id : Z) : System :=
  match router sys !! id with
  | None => sys
  | Some (addr, mailbox) =>
      match objects sys !! addr with
      | None => sys
      | Some a =>
          let a' := Poll a (take (batchSize sys) mailbox) in
          {| mailboxCap := mailboxCap sys; batchSize := batchSize sys;
             running := running sys;
             objects := <[addr := a']> (objects sys);
             nextObject := nextObject sys;
             router := if stopped a' then delete id (router sys)
                       else <[id := (addr, drop (batchSize sys) mailbox)]> (router sys) |}
      end
  end.

(** What can happen to a system from outside. *)
Inductive event : Type :=
| EvSpawn (id : Z) (a : tableActor)
| EvSend (id : Z) (msg : Message)
| EvPoll (id : Z).

Definition step (sys : System) (ev : event) : System :=
  match ev with
  | EvSpawn id a => (Spawn sys id a).2
  | EvSend id msg => (Send sys id msg).2
  | EvPoll id => poll_actor sys id
  end.

Definition steps (sys : System) (evs : list event) : System := foldl step sys evs.

(** Every registered address is allocated. *)
Definition system_wf (sys : System) : Prop :=
  (∀ id addr mb, router sys !! id = Some (addr, mb) → addr < nextObject sys)
  ∧ (∀ addr a, objects sys !! addr = Some a → addr < nextObject sys).

(** The address [addr] holds a stopped actor that no id routes to. *)
Definition retired (sys : System) (addr : nat) (a : tableActor) : Prop :=
  objects sys !! addr = Some a
  ∧ stopped a = true
  ∧ ∀ id addr' mb, router sys !! id = Some (addr', mb) → addr' ≠ addr.

(** The scenario of the actor test: a system, the actor for table 1
    spawned in it, Barrier(2) and Stop sent to it. *)
Definition test_actor : tableActor := NewTableActor 1 "t1" 1 0 true.

Definition test_system (mailboxCap batchSize : nat) : System :=
  let sys := (Spawn (NewSystem mailboxCap batchSize) 1 test_actor).2 in
  let sys := (Send sys 1 (BarrierMessage 2)).2 in
  (Send sys 1 StopMessage).2.

End Pipeline.

Module FakeNode.

(** The stand-in data node of [cdc/processor/pipeline/actor_test.go] and
    the creator that hands it out.  [pipeline.Message] is a parameter. *)

Section node.
Context {Msg : Type}.

(** A Go channel that is open and on which no goroutine is blocked: its
    capacity and the buffered elements, oldest first.  The file never
    closes the channel and uses it through the two non-blocking selects
    below only. *)
Record chan : Type := {
  cap : nat;
  buf : list Msg;
}.

(** [select { case ch <- v: ...; default: ... }]: a nil channel is never
    ready, an open one takes the value when its buffer has room. *)
Definition try_send (ch : option chan) (v : Msg) : option chan * bool :=
  match ch with
  | None => (None, false)
  | Some c =>
      if (length (buf c) <? cap c)%nat
      then (Some {| cap := cap c; buf := buf c ++ [v] |}, true)
      else (Some c, false)
  end.

(** [select { case v = <-ch: ...; default: ... }]: a nil channel is never
    ready, an open one gives its oldest buffered value. *)
Definition try_recv (ch : option chan) : option chan * option Msg :=
  match ch with
  | None => (None, None)
  | Some c =>
      match buf c with
      | [] => (Some c, None)
      | v :: rest => (Some {| cap := cap c; buf := rest |}, Some v)
      end
  end.

(** FakeTableActorDataNode; [outputCh = None] is the nil channel of the
    zero value. *)
Record FakeTableActorDataNode : Type := {
  outputCh : option chan;
}.

(** TryHandleDataMessage: the Go results are [(bool, error)], the error
    always nil. *)
Definition TryHandleDataMessage (n : FakeTableActorDataNode) (msg : Msg)
  : FakeTableActorDataNode * (bool * option string) :=
  let '(ch, sent) := try_send (outputCh n) msg in
  ({| outputCh := ch |}, (sent, None)).

Definition Start (n : FakeTableActorDataNode) : FakeTableActorDataNode * option string :=
  (n, None).

(** TryGetProcessedMessage: a pointer to the received message, or nil. *)
Definition TryGetProcessedMessage (n : FakeTableActorDataNode)
  : FakeTableActorDataNode * option Msg :=
  let '(ch, got) := try_recv (outputCh n) in
  ({| outputCh := ch |}, got).

(** FakeTableNodeCreator: the puller, sorter and cyclic nodes are each
    [&FakeTableActorDataNode{}], whatever the arguments (those that are
    not values of the model are left out). *)
Definition NewPullerNode (tableID : Z) (tableName : string) : FakeTableActorDataNode :=
  {| outputCh := None |}.

Definition NewSorterNode (tableName : string) (tableID startTs : Z)
  : FakeTableActorDataNode :=
  {| outputCh := None |}.

Definition NewCyclicNode (markTableID : Z) : FakeTableActorDataNode :=
  {| outputCh := None |}.

(** What a table actor does with a data node, and what it gets back. *)
Inductive node_op : Type :=
| OpHandle (msg : Msg)
| OpGet
| OpStart.

Inductive node_reply : Type :=
| Handled (accepted : bool) (err : option string)
| Got (msg : option Msg)
| Started (err : option string).

Definition node_step (n : FakeTableActorDataNode) (o : node_op)
  : FakeTableActorDataNode * node_reply :=
  match o with
  | OpHandle msg => let '(n', (b, e)) := TryHandleDataMessage n msg in (n', Handled b e)
  | OpGet => let '(n', g) := TryGetProcessedMessage n in (n', Got g)
  | OpStart => let '(n', e) := Start n in (n', Started e)
  end.

(** The answer that takes nothing in and gives nothing out. *)
Definition refusal (o : node_op) : node_reply :=
  match o with
  | OpHandle _ => Handled false None
  | OpGet => Got None
  | OpStart => Started None
  end.

Fixpoint node_run (n : FakeTableActorDataNode) (ops : list node_op)
  : FakeTableActorDataNode * list node_reply :=
  match ops with
  | [] => (n, [])
  | o :: ops' =>
      let '(n1, r) := node_step n o in
      let '(n2, rs) := node_run n1 ops' in
      (n2, r :: rs)
  end.

(** The messages a run of operations took in, and those it gave out, each
    in order. *)
Fixpoint accepted_msgs (ops : list node_op) (rs : list node_reply) : list Msg :=
  match ops, rs with
  | OpHandle msg :: ops', Handled true _ :: rs' => msg :: accepted_msgs ops' rs'
  | _ :: ops', _ :: rs' => accepted_msgs ops' rs'
  | _, _ => []
  end.

Fixpoint delivered_msgs (rs : list node_reply) : list Msg :=
  match rs with
  | Got (Some msg) :: rs' => msg :: delivered_msgs rs'
  | _ :: rs' => delivered_msgs rs'
  | [] => []
  end.

End node.
Arguments chan : clear implicits.
Arguments FakeTableActorDataNode : clear implicits.
Arguments node_op : clear implicits.
Arguments node_reply : clear implicits.

End FakeNode.

(** * Properties *)

(** ** sort.Search *)

Lemma midpoint_between (i j : nat) : i < j → i ≤ (i + j) / 2 < j.
Proof.
  intros Hlt. pose proof (Nat.div_mod_eq (i + j) 2) as Hdm.
  pose proof (Nat.mod_upper_bound (i + j) 2). lia.
Qed.

Lemma search_loop_total (fuel : nat) (f : nat → bool) (i j : nat) :
  j - i ≤ fuel → is_Some (search_loop fuel f i j).
Proof.
  revert i j. induction fuel as [|fuel IH]; intros i j Hfuel; cbn [search_loop].
  - destruct (Nat.ltb_spec i j); [lia | eauto].
  - destruct (Nat.ltb_spec i j) as [Hlt|]; [| eauto].
    destruct (midpoint_between i j Hlt) as [Hlo Hhi].
    destruct (f _); cbn [search_loop]; apply IH; lia.
Qed.

(** The loop always ends with an index: the counter never runs out. *)
Lemma Search_total (n : nat) (f : nat → bool) : is_Some (Search n f).
Proof. apply search_loop_total. lia. Qed.

(** The loop probes [f] only inside [i, j). *)
Lemma search_loop_ext (fuel : nat) (f g : nat → bool) (i j : nat) :
  (∀ h, i ≤ h < j → f h = g h) → search_loop fuel f i j = search_loop fuel g i j.
Proof.
  revert i j. induction fuel as [|fuel IH]; intros i j Hfg; cbn [search_loop]; [done|].
  destruct (Nat.ltb_spec i j) as [Hlt|]; [| done].
  destruct (midpoint_between i j Hlt) as [Hlo Hhi].
  rewrite <- (Hfg ((i + j) / 2)) by lia.
  destruct (f _); cbn [search_loop]; apply IH; intros h Hh; apply Hfg; lia.
Qed.

(** On a predicate that is false below some point and true from it on
    (within [0, n)), the loop returns that point. *)
Lemma search_loop_spec (n fuel : nat) (f : nat → bool) (i j r : nat) :
  (∀ a b, a ≤ b → b < n → f a = true → f b = true) →
  j ≤ n →
  (∀ k, k < i → f k = false) →
  (∀ k, j ≤ k → k < n → f k = true) →
  search_loop fuel f i j = Some r →
  i ≤ j →
  i ≤ r ≤ j ∧ (∀ k, k < r → f k = false) ∧ (∀ k, r ≤ k → k < n → f k = true).
Proof.
  intros Hmono. revert i j.
  induction fuel as [|fuel IH]; intros i j Hjn Hlow Hhigh Hs Hij; cbn [search_loop negb] in Hs.
  - destruct (Nat.ltb_spec i j); [done|]. simplify_eq.
    assert (r = j) as -> by lia. auto with lia.
  - destruct (Nat.ltb_spec i j) as [Hlt|].
    2:{ simplify_eq. assert (r = j) as -> by lia. auto with lia. }
    destruct (midpoint_between i j Hlt) as [Hlo Hhi].
    destruct (f ((i + j) / 2)) eqn:Hf; cbn [search_loop negb] in Hs.
    + apply IH in Hs; [ | lia | done | | lia].
      * destruct Hs as (? & ? & ?). split; [lia | done].
      * intros k Hk Hkn. apply (Hmono ((i + j) / 2)); [lia | done | done].
    + apply IH in Hs; [ | lia | | done | lia].
      * destruct Hs as (? & ? & ?). split; [lia | done].
      * intros k Hk. destruct (f k) eqn:Hfk; [|done].
        rewrite <- Hf. symmetry. apply (Hmono k); [lia | lia | done].
Qed.

Lemma Search_spec (n : nat) (f : nat → bool) :
  (∀ a b, a ≤ b → b < n → f a = true → f b = true) →
  ∃ r, Search n f = Some r ∧ r ≤ n
       ∧ (∀ k, k < r → f k = false) ∧ (∀ k, r ≤ k → k < n → f k = true).
Proof.
  intros Hmono. destruct (Search_total n f) as [r Hr]. exists r.
  split; [done|].
  apply (search_loop_spec n) in Hr; [ | done | lia | lia | lia | lia].
  destruct Hr as ([_ ?] & ? & ?). auto.
Qed.

(** ** Slice manipulation *)

(** [append(s[:i+1], s[i:]...)] followed by [s[i] = x] inserts [x] before
    position [i]. *)
Lemma insert_idiom {A} (s : list A) (i : nat) (x : A) :
  i < length s →
  <[i := x]> (take (i + 1) s ++ drop i s) = take i s ++ x :: drop i s.
Proof.
  intros Hi. destruct (lookup_lt_is_Some_2 s i Hi) as [y Hy].
  replace (i + 1) with (S i) by lia.
  rewrite (take_S_r s i y Hy), <- app_assoc. simpl.
  assert (length (take i s) = i) as Hlen by (rewrite length_take; lia).
  rewrite <- Hlen at 1. replace (length (take i s)) with (length (take i s) + 0) by lia.
  rewrite insert_app_r. done.
Qed.

(** [copy(s[i:], s[i+1:])] followed by [s = s[:len(s)-1]] deletes position [i]. *)
Lemma delete_idiom {A} (s : list A) (i : nat) :
  i < length s →
  take (length (copy_at i s (drop (i + 1) s)) - 1) (copy_at i s (drop (i + 1) s))
  = take i s ++ drop (i + 1) s.
Proof.
  intros Hi. unfold copy_at.
  assert (length (take i s) = i) as Hlen by (rewrite length_take; lia).
  rewrite (take_ge (drop (i + 1) s)) by (rewrite length_drop; lia).
  rewrite !length_app, !length_drop, Hlen.
  rewrite app_assoc.
  rewrite take_app_length'; [done|].
  rewrite length_app, length_drop, Hlen. lia.
Qed.

(** ** The table bookkeeping of the redo manager *)

Module RedoFacts.
Import Redo.

Lemma sorted_nth_lt (ids : list Z) (a b : nat) :
  StronglySorted Z.lt ids → a < b → b < length ids →
  (nth a ids 0 < nth b ids 0)%Z.
Proof.
  intros Hs. revert a b. induction Hs as [|x l Hs IH Hall]; intros a b Hab Hb.
  - simpl in Hb. lia.
  - destruct b as [|b]; [lia|]. simpl in Hb.
    destruct a as [|a]; simpl.
    + rewrite Forall_forall in Hall. apply Hall.
      apply list_elem_of_In, nth_In. lia.
    + apply IH; lia.
Qed.

Lemma not_below_mono (ids : list Z) (t : Z) (a b : nat) :
  StronglySorted Z.lt ids →
  a ≤ b → b < length ids → not_below ids t a = true → not_below ids t b = true.
Proof.
  unfold not_below. intros Hs Hab Hb Ha.
  apply Z.leb_le in Ha. apply Z.leb_le.
  destruct (decide (a = b)) as [->|]; [done|].
  pose proof (sorted_nth_lt ids a b Hs). lia.
Qed.

(** On a strictly ascending slice the search returns the split point: all
    ids before it are smaller than [t], all ids from it on are at least [t]. *)
Lemma Search_tableIDs (ids : list Z) (t : Z) :
  StronglySorted Z.lt ids →
  ∃ i, Search (length ids) (not_below ids t) = Some i
       ∧ i ≤ length ids
       ∧ Forall (λ x, (x < t)%Z) (take i ids)
       ∧ Forall (λ x, (t ≤ x)%Z) (drop i ids).
Proof.
  intros Hs.
  destruct (Search_spec (length ids) (not_below ids t)) as (i & Hi & Hle & Hlo & Hhi).
  { intros a b. by apply not_below_mono. }
  exists i. split_and!; [done | done | |].
  - apply Forall_lookup_2. intros k x Hk.
    pose proof (lookup_lt_Some _ _ _ Hk) as Hklen. rewrite length_take in Hklen.
    rewrite lookup_take_lt in Hk by lia.
    specialize (Hlo k ltac:(lia)). unfold not_below in Hlo.
    rewrite (nth_lookup_Some _ _ _ _ Hk) in Hlo. apply Z.leb_gt in Hlo. done.
  - apply Forall_lookup_2. intros k x Hk.
    rewrite lookup_drop in Hk.
    pose proof (lookup_lt_Some _ _ _ Hk) as Hklen.
    specialize (Hhi (i + k) ltac:(lia) Hklen). unfold not_below in Hhi.
    rewrite (nth_lookup_Some _ _ _ _ Hk) in Hhi. apply Z.leb_le in Hhi. done.
Qed.

(** Where the split point stands relative to [t] when [t] is, or is not,
    one of the ids. *)
Lemma split_point_present (ids : list Z) (t : Z) (i : nat) :
  StronglySorted Z.lt ids → t ∈ ids →
  Forall (λ x, (x < t)%Z) (take i ids) → Forall (λ x, (t ≤ x)%Z) (drop i ids) →
  i < length ids ∧ nth i ids 0%Z = t ∧ (t ∉ take i ids) ∧ (t ∉ drop (S i) ids).
Proof.
  intros Hs Hin Hlo Hhi.
  assert (t ∉ take i ids) as Hnl.
  { intros Ht. rewrite Forall_forall in Hlo. specialize (Hlo t Ht). lia. }
  rewrite <- (take_drop i ids) in Hin. apply elem_of_app in Hin as [?|Hin]; [done|].
  destruct (drop i ids) as [|y rest] eqn:Hd; [by apply elem_of_nil in Hin|].
  assert (i < length ids) as Hi.
  { destruct (decide (i < length ids)); [done|]. rewrite drop_ge in Hd by lia. done. }
  assert (ids !! i = Some y) as Hy.
  { rewrite <- (Nat.add_0_r i), <- lookup_drop, Hd. done. }
  assert (drop (S i) ids = rest) as Hrest.
  { replace (S i) with (i + 1) by lia. rewrite <- drop_drop, Hd. done. }
  assert (StronglySorted Z.lt (y :: rest)) as Hsr.
  { rewrite <- Hd. rewrite <- (take_drop i ids) in Hs.
    by apply StronglySorted_app_1_r in Hs. }
  apply StronglySorted_inv in Hsr as [_ Hall].
  apply Forall_cons in Hhi as [Hty _].
  assert (y = t) as ->.
  { apply elem_of_cons in Hin as [->|Hin]; [done|].
    rewrite Forall_forall in Hall. specialize (Hall t Hin). lia. }
  split_and!; [done | by apply nth_lookup_Some | done |].
  rewrite Hrest. intros Ht. rewrite Forall_forall in Hall. specialize (Hall t Ht). lia.
Qed.

Lemma split_point_absent (ids : list Z) (t : Z) (i : nat) :
  t ∉ ids → Forall (λ x, (t ≤ x)%Z) (drop i ids) →
  (i < length ids → nth i ids 0%Z ≠ t) ∧ Forall (λ x, (t < x)%Z) (drop i ids).
Proof.
  intros Hnin Hhi. split.
  - intros Hi Heq. apply Hnin. rewrite <- Heq.
    apply list_elem_of_In, nth_In. done.
  - rewrite Forall_forall in Hhi |- *. intros x Hx.
    assert (x ∈ ids) by (by eapply subseteq_drop).
    specialize (Hhi x Hx). assert (x ≠ t) by congruence. lia.
Qed.

Lemma sorted_insert (ids : list Z) (t : Z) (i : nat) :
  StronglySorted Z.lt ids →
  Forall (λ x, (x < t)%Z) (take i ids) → Forall (λ x, (t < x)%Z) (drop i ids) →
  StronglySorted Z.lt (take i ids ++ t :: drop i ids).
Proof.
  intros Hs Hlo Hhi. rewrite <- (take_drop i ids) in Hs.
  apply StronglySorted_app_2.
  - intros x1 x2 H1 H2. rewrite Forall_forall in Hlo, Hhi.
    specialize (Hlo x1 H1). apply elem_of_cons in H2 as [->|H2]; [done|].
    specialize (Hhi x2 H2). lia.
  - by apply StronglySorted_app_1_l in Hs.
  - apply SSorted_cons; [by apply StronglySorted_app_1_r in Hs | done].
Qed.

Lemma sorted_delete (ids : list Z) (i : nat) :
  StronglySorted Z.lt ids → StronglySorted Z.lt (take i ids ++ drop (S i) ids).
Proof.
  intros Hs. rewrite <- (take_drop i ids) in Hs.
  assert (drop (S i) ids ⊆ drop i ids) as Hsub.
  { replace (S i) with (i + 1) by lia. rewrite <- drop_drop. apply subseteq_drop. }
  apply StronglySorted_app_2.
  - intros x1 x2 H1 H2.
    eapply (StronglySorted_app_1_elem_of Z.lt); [exact Hs | done | by apply Hsub].
  - by apply StronglySorted_app_1_l in Hs.
  - apply StronglySorted_app_1_r in Hs.
    replace (S i) with (i + 1) by lia. rewrite <- drop_drop.
    destruct (drop i ids) as [|y rest]; [done|].
    by apply StronglySorted_inv in Hs as [? _].
Qed.

Section tables.
Context {W : Type}.
Implicit Types m : ManagerImpl W.

(** AddTable of an id that is already tracked warns and returns; the
    manager is untouched. *)
Lemma AddTable_present m (t s : Z) :
  StronglySorted Z.lt (tableIDs m) → t ∈ tableIDs m →
  AddTable m t s = Returned m tt.
Proof.
  intros Hs Hin. unfold AddTable.
  destruct (Search_tableIDs (tableIDs m) t Hs) as (i & -> & _ & Hlo & Hhi).
  destruct (split_point_present _ _ _ Hs Hin Hlo Hhi) as (Hi & Hnth & _ & _).
  apply Nat.ltb_lt in Hi. apply Z.eqb_eq in Hnth. cbn zeta. by rewrite Hi, Hnth.
Qed.

(** AddTable of a new id inserts it at the split point and records its
    start timestamp. *)
Lemma AddTable_absent m (t s : Z) (r : gmap Z Z) :
  StronglySorted Z.lt (tableIDs m) → rtsMap m = Some r → t ∉ tableIDs m →
  ∃ i, Forall (λ x, (x < t)%Z) (take i (tableIDs m))
       ∧ Forall (λ x, (t < x)%Z) (drop i (tableIDs m))
       ∧ AddTable m t s
         = Returned (set_rtsMap (set_tableIDs m (take i (tableIDs m) ++ t :: drop i (tableIDs m)))
                                (Some (<[t := s]> r))) tt.
Proof.
  intros Hs Hr Hnin. unfold AddTable.
  destruct (Search_tableIDs (tableIDs m) t Hs) as (i & -> & Hle & Hlo & Hhi).
  destruct (split_point_absent _ _ i Hnin Hhi) as [Hne Hgt].
  exists i. split_and!; [done | done |]. cbn zeta.
  replace ((i <? length (tableIDs m)) && (nth i (tableIDs m) 0 =? t)%Z) with false.
  2:{ symmetry. apply andb_false_iff.
      destruct (Nat.ltb_spec i (length (tableIDs m))) as [Hi|]; [right | by left].
      apply Z.eqb_neq. auto. }
  destruct (Nat.eqb_spec i (length (tableIDs m))) as [->|Hi].
  - rewrite take_ge, drop_ge by lia. cbn. by rewrite Hr.
  - rewrite insert_idiom by lia. cbn. by rewrite Hr.
Qed.

(** RemoveTable of a tracked id deletes it from the slice and the map. *)
Lemma RemoveTable_present m (t : Z) :
  StronglySorted Z.lt (tableIDs m) → t ∈ tableIDs m →
  ∃ i, i < length (tableIDs m) ∧ nth i (tableIDs m) 0%Z = t
       ∧ (t ∉ take i (tableIDs m)) ∧ (t ∉ drop (S i) (tableIDs m))
       ∧ RemoveTable m t
         = Returned (set_rtsMap (set_tableIDs m (take i (tableIDs m) ++ drop (S i) (tableIDs m)))
                                (delete t <$> rtsMap m)) tt.
Proof.
  intros Hs Hin. unfold RemoveTable.
  destruct (Search_tableIDs (tableIDs m) t Hs) as (i & -> & _ & Hlo & Hhi).
  destruct (split_point_present _ _ _ Hs Hin Hlo Hhi) as (Hi & Hnth & Hl & Hr).
  exists i. split_and!; [done..|].
  cbn zeta. rewrite (proj2 (Nat.ltb_lt _ _) Hi), (proj2 (Z.eqb_eq _ _) Hnth). cbn [andb].
  rewrite delete_idiom by done. by replace (i + 1) with (S i) by lia.
Qed.

(** RemoveTable of an id that is not tracked warns and returns; the
    manager is untouched. *)
Lemma RemoveTable_absent m (t : Z) :
  StronglySorted Z.lt (tableIDs m) → t ∉ tableIDs m →
  RemoveTable m t = Returned m tt.
Proof.
  intros Hs Hnin. unfold RemoveTable.
  destruct (Search_tableIDs (tableIDs m) t Hs) as (i & -> & Hle & Hlo & Hhi).
  destruct (split_point_absent _ _ i Hnin Hhi) as [Hne _]. cbn zeta.
  destruct (Nat.ltb_spec i (length (tableIDs m))) as [Hi|]; [|done].
  by rewrite (proj2 (Z.eqb_neq _ _) (Hne Hi)).
Qed.

End tables.

Section bookkeeping.
Context {W Row RedoRow DDL RedoDDL URL : Type}.
Context `{!RedoLogWriter W RedoRow RedoDDL}.
Context `{!Collaborators W Row RedoRow DDL RedoDDL URL}.
Implicit Types m : ManagerImpl W.

Lemma tables_inv_AddTable m (t s : Z) :
  tables_inv m → ∃ m', AddTable m t s = Returned m' tt ∧ tables_inv m'.
Proof.
  intros (r & Hr & Hdom & Hs).
  destruct (decide (t ∈ tableIDs m)) as [Hin|Hnin].
  - exists m. split; [by apply AddTable_present | by exists r].
  - destruct (AddTable_absent m t s r Hs Hr Hnin) as (i & Hlo & Hhi & ->).
    eexists. split; [done|]. exists (<[t := s]> r). cbn. split_and!; [done | |].
    + rewrite dom_insert_L, Hdom, list_to_set_app_L, list_to_set_cons.
      rewrite <- (take_drop i (tableIDs m)) at 1. rewrite list_to_set_app_L.
      generalize (list_to_set (take i (tableIDs m)) : gset Z),
                 (list_to_set (drop i (tableIDs m)) : gset Z).
      clear. intros L R. apply set_eq. intros x.
      rewrite !elem_of_union, elem_of_singleton. tauto.
    + by apply sorted_insert.
Qed.

Lemma tables_inv_RemoveTable m (t : Z) :
  tables_inv m → ∃ m', RemoveTable m t = Returned m' tt ∧ tables_inv m'.
Proof.
  intros (r & Hr & Hdom & Hs).
  destruct (decide (t ∈ tableIDs m)) as [Hin|Hnin].
  - destruct (RemoveTable_present m t Hs Hin) as (i & Hi & Hnth & Hl & Hrr & ->).
    eexists. split; [done|]. exists (delete t r). cbn. rewrite Hr.
    split_and!; [done | | by apply sorted_delete].
    rewrite dom_delete_L, Hdom, list_to_set_app_L.
    assert (tableIDs m = take i (tableIDs m) ++ t :: drop (S i) (tableIDs m)) as Heq.
    { symmetry. apply take_drop_middle. rewrite <- Hnth.
      destruct (nth_lookup_or_length (tableIDs m) i 0%Z); [done | lia]. }
    rewrite Heq at 1. rewrite list_to_set_app_L, list_to_set_cons.
    apply set_eq. intros x. rewrite !elem_of_difference, !elem_of_union,
      !elem_of_singleton, !elem_of_list_to_set.
    split; [intros [[?|[?|?]] ?]; auto; done |].
    intros [?|?]; (split; [auto |]); intros ->; done.
  - exists m. split; [by apply RemoveTable_absent | by exists r].
Qed.

(** Any run of AddTable and RemoveTable calls returns and keeps the
    invariant. *)
Lemma tables_inv_exec m (cs : list (call Row DDL)) :
  tables_inv m → forallb is_table_call cs = true →
  ∃ m', exec m cs = Returned m' tt ∧ tables_inv m'.
Proof.
  revert m. induction cs as [|c cs IH]; intros m Hinv Hcs; [by exists m|].
  cbn in Hcs. apply andb_true_iff in Hcs as [Hc Hcs].
  destruct c; try discriminate Hc; cbn.
  - destruct (tables_inv_AddTable m tableID startTs Hinv) as (m1 & -> & Hinv1).
    cbn. by apply IH.
  - destruct (tables_inv_RemoveTable m tableID Hinv) as (m1 & -> & Hinv1).
    cbn. by apply IH.
Qed.

(** The manager NewManager builds for an enabled level starts within the
    invariant. *)
Lemma tables_inv_NewManager (ctx : Ctx) cfg opts m (bg : bool) :
  NewManager ctx cfg opts = NewOk m bg → Enabled m = true → tables_inv m.
Proof.
  unfold NewManager. intros Hnew Hen.
  assert (∀ w, match opts with
               | Some o => NewOk (enabled_manager
                                    (default {| Level := ""; Storage := ""; MaxLogSize := 0;
                                                FlushIntervalInMs := 0; S3URI := "" |} cfg) w)
                                 (EnableBgRunner o)
               | None => NewPanic NilDereference
               end = NewOk m bg → tables_inv m) as Hfin.
  { intros w Hw. destruct opts; [|done]. injection Hw as <- _.
    exists ∅. cbn. split_and!; [done | by rewrite dom_empty_L | constructor]. }
  destruct cfg as [cfg|]; [|by injection Hnew as <- _].
  destruct (String.eqb (Level cfg) consistentLevelNormal); [by injection Hnew as <- _|].
  destruct (String.eqb (Storage cfg) consistentStorageBlackhole); [by eapply Hfin|].
  destruct (_ || _); [|done].
  destruct (String.eqb (Storage cfg) consistentStorageS3); [|by eapply Hfin].
  destruct (url_Parse _); [by eapply Hfin | done].
Qed.

(** The manager NewManager returns disabled is the zero value. *)
Lemma NewManager_disabled (ctx : Ctx) cfg opts m (bg : bool) :
  NewManager ctx cfg opts = NewOk m bg → Enabled m = false → m = NewDisabledManager.
Proof.
  unfold NewManager. intros Hnew Hen.
  destruct cfg as [cfg|]; [|by injection Hnew as <- _].
  destruct (String.eqb (Level cfg) consistentLevelNormal); [by injection Hnew as <- _|].
  destruct (String.eqb (Storage cfg) consistentStorageBlackhole).
  { destruct opts; [|done]. by injection Hnew as <- _. }
  destruct (_ || _); [|done].
  destruct (String.eqb (Storage cfg) consistentStorageS3).
  - destruct (url_Parse _); [|done]. destruct opts; [|done]. by injection Hnew as <- _.
  - destruct opts; [|done]. by injection Hnew as <- _.
Qed.

(** C2, as the code has it.  On a manager that NewManager built enabled,
    every sequence of AddTable and RemoveTable calls returns, the keys of
    rtsMap are exactly the elements of tableIDs, and tableIDs is strictly
    ascending; in the state reached, AddTable of a tracked id and
    RemoveTable of an untracked id leave the manager as it is.  On the
    manager NewManager returns disabled there is no rtsMap and tableIDs is
    empty: RemoveTable returns and changes nothing, but AddTable puts the
    id into tableIDs and then faults on the nil rtsMap. *)
Theorem table_bookkeeping_invariant (ctx : Ctx) cfg opts m (bg : bool)
    (cs : list (call Row DDL)) :
  NewManager ctx cfg opts = NewOk m bg →
  (Enabled m = true → forallb is_table_call cs = true →
   ∃ m' r, exec m cs = Returned m' tt
           ∧ rtsMap m' = Some r
           ∧ dom r = list_to_set (tableIDs m')
           ∧ StronglySorted Z.lt (tableIDs m')
           ∧ (∀ t s, t ∈ tableIDs m' → AddTable m' t s = Returned m' tt)
           ∧ (∀ t, t ∉ tableIDs m' → RemoveTable m' t = Returned m' tt))
  ∧ (Enabled m = false →
     rtsMap m = None
     ∧ tableIDs m = []
     ∧ (∀ t, RemoveTable m t = Returned m tt)
     ∧ (∀ t s, AddTable m t s = Panicked (set_tableIDs m [t]) NilMapAssignment)).
Proof.
  intros Hnew. split.
  - intros Hen Hcs.
    destruct (tables_inv_exec m cs) as (m' & Hex & r & Hr & Hdom & Hs);
      [by eapply tables_inv_NewManager | done |].
    exists m', r. split_and!; [done..| |].
    + intros t s. by apply AddTable_present.
    + intros t. by apply RemoveTable_absent.
  - intros Hen. rewrite (NewManager_disabled ctx cfg opts m bg Hnew Hen).
    by split_and!.
Qed.

End bookkeeping.

(** ** The tick of the background loop *)

(** What the [range] loop leaves behind: the report is written over
    [m.rtsMap], and the second component is a lower bound of the initial
    value and of every reported timestamp, and is one of them. *)
Lemma range_fold_spec (r0 : gmap Z Z) (mx : Z) (report : gmap Z Z) :
  let acc := map_fold range_step (r0, mx) report in
  acc.1 = report ∪ r0
  ∧ (acc.2 ≤ mx)%Z
  ∧ (∀ k v, report !! k = Some v → (acc.2 ≤ v)%Z)
  ∧ (acc.2 = mx ∨ ∃ k, report !! k = Some acc.2).
Proof.
  cbn zeta.
  apply (map_fold_weak_ind
           (λ acc rep, acc.1 = rep ∪ r0 ∧ (acc.2 ≤ mx)%Z
                       ∧ (∀ k v, rep !! k = Some v → (acc.2 ≤ v)%Z)
                       ∧ (acc.2 = mx ∨ ∃ k, rep !! k = Some acc.2))).
  - cbn. split_and!; [by rewrite (left_id_L ∅ (∪)) | lia | | by left].
    intros k v Hk. by rewrite lookup_empty in Hk.
  - intros k v rep [r1 mn] Hk (H1 & H2 & H3 & H4). cbn in *. subst r1.
    split_and!.
    + by rewrite insert_union_l.
    + destruct (Z.ltb_spec v mn); lia.
    + intros k' v' Hk'. destruct (decide (k = k')) as [->|Hne].
      * rewrite lookup_insert_eq in Hk'. simplify_eq.
        destruct (Z.ltb_spec v' mn); lia.
      * rewrite lookup_insert_ne in Hk' by done. specialize (H3 _ _ Hk').
        destruct (Z.ltb_spec v mn); lia.
    + destruct (Z.ltb_spec v mn).
      * right. exists k. by rewrite lookup_insert_eq.
      * destruct H4 as [?|[k' Hk']]; [by left | right].
        exists k'. rewrite lookup_insert_ne; [done | congruence].
Qed.

(** The minimum does not depend on the map the loop writes into. *)
Lemma range_fold_min (r0 : gmap Z Z) (report : gmap Z Z) :
  (map_fold range_step (r0, MaxUint64) report).2 = report_min report.
Proof.
  unfold report_min. rewrite !map_fold_foldr.
  induction (map_to_list report) as [|[k v] l IH]; [done|].
  cbn. by rewrite IH.
Qed.

(** Go leaves the iteration order of [range] over a map unspecified; the
    result of the loop is the same for every order. *)
Lemma range_order_irrelevant (init : gmap Z Z * Z) (report : gmap Z Z)
    (order : list (Z * Z)) :
  order ≡ₚ map_to_list report →
  foldr (uncurry range_step) init order = map_fold range_step init report.
Proof.
  intros Hperm. rewrite map_fold_foldr. symmetry.
  apply (foldr_permutation eq (uncurry range_step) init); [ | done].
  intros j1 [k1 v1] j2 [k2 v2] [r mn] Hj H1 H2.
  assert (k1 ≠ k2) as Hk.
  { intros ->. pose proof (NoDup_fst_map_to_list report) as Hnd.
    apply Hj. eapply NoDup_lookup; [exact Hnd | |];
      rewrite list_lookup_fmap; [by rewrite H1 | by rewrite H2]. }
  unfold range_step. cbn. f_equal; [by apply insert_insert_ne |].
  destruct (Z.ltb_spec v2 mn), (Z.ltb_spec v1 mn);
    repeat (match goal with |- context [Z.ltb ?a ?b] => destruct (Z.ltb_spec a b) end);
    lia.
Qed.

Lemma report_min_le_max (report : gmap Z Z) : (report_min report ≤ MaxUint64)%Z.
Proof. unfold report_min. apply (range_fold_spec ∅ MaxUint64 report). Qed.

Lemma report_min_empty : report_min ∅ = MaxUint64.
Proof. unfold report_min. by rewrite map_fold_empty. Qed.

(** Over [≤], a list is in order when its head is below the next element
    and the rest is in order. *)
Lemma sorted_le_cons2 (a b : Z) (l : list Z) :
  StronglySorted Z.le (a :: b :: l) ↔ (a ≤ b)%Z ∧ StronglySorted Z.le (b :: l).
Proof.
  split.
  - intros Hs. apply StronglySorted_inv in Hs as [Hs Hall].
    split; [|done]. by apply Forall_cons in Hall as [? _].
  - intros [Hab Hs]. constructor; [done|].
    apply StronglySorted_inv in Hs as [_ Hall].
    constructor; [done|]. eapply Forall_impl; [exact Hall|]. cbn. lia.
Qed.

(** A report holds no timestamp below the minimum of the one before it
    exactly when its own minimum is not below that minimum. *)
Lemma no_regress_iff (r r' : gmap Z Z) :
  no_regress r r' ↔ (report_min r ≤ report_min r')%Z.
Proof.
  unfold no_regress.
  destruct (range_fold_spec ∅ MaxUint64 r') as (_ & _ & Hlow & Hatt).
  cbn zeta in Hlow, Hatt. fold (report_min r') in Hlow, Hatt. split.
  - intros Hall. destruct Hatt as [->|[k Hk]]; [apply report_min_le_max|].
    apply (Hall k _ Hk).
  - intros Hle k v Hk. cbn. specialize (Hlow k v Hk). lia.
Qed.

(** A later report whose tables were all reported before, none with a
    smaller timestamp, has a minimum that is not smaller. *)
Lemma report_min_dominated (r r' : gmap Z Z) :
  dominated r r' → (report_min r ≤ report_min r')%Z.
Proof.
  intros Hdom. unfold report_min.
  destruct (range_fold_spec ∅ MaxUint64 r) as (_ & Hmax & Hlow & _).
  destruct (range_fold_spec ∅ MaxUint64 r') as (_ & _ & _ & [->|[k Hk]]); [done|].
  cbn zeta in *. specialize (Hdom k _ Hk). cbn in Hdom.
  destruct (r !! k) as [v|] eqn:Hv; [|done]. specialize (Hlow k v Hv). lia.
Qed.

Section ticks.
Context {W Row RedoRow DDL RedoDDL URL : Type}.
Context `{!RedoLogWriter W RedoRow RedoDDL}.
Context `{!Collaborators W Row RedoRow DDL RedoDDL URL}.
Implicit Types m : ManagerImpl W.

(** A tick whose writer call succeeds publishes the minimum of the report
    and writes the report over [rtsMap]; it faults only when it has to
    write into a nil [rtsMap]. *)
Lemma tick_publishes m (w w' : W) (report : gmap Z Z) :
  writer m = Some w →
  GetCurrentResolvedTs w (tableIDs m) = (w', (report, None)) →
  is_Some (rtsMap m) ∨ report = ∅ →
  ∃ m', updateTableResolvedTs m = Returned m' None
        ∧ GetMinResolvedTs m' = report_min report
        ∧ tableIDs m' = tableIDs m
        ∧ writer m' = Some w'
        ∧ rtsMap m' = (λ r, report ∪ r) <$> rtsMap m.
Proof.
  intros Hw Hget Hmap. unfold updateTableResolvedTs. rewrite Hw, Hget. cbn.
  destruct (rtsMap m) as [r|] eqn:Hr.
  - eexists. split; [done|]. cbn.
    rewrite range_fold_min. split_and!; [done..|].
    f_equal. apply (range_fold_spec r MaxUint64 report).
  - destruct Hmap as [[? ?]| ->]; [done|].
    rewrite decide_True by done. eexists. split; [done|]. cbn.
    by rewrite report_min_empty, Hr.
Qed.

(** What a returning call does to the published minimum: a publishing tick
    sets it to the minimum of the report, everything else leaves it. *)
Lemma exec_call_min m (c : call Row DDL) m' (e : option error) :
  exec_call m c = Returned m' e →
  GetMinResolvedTs m'
  = match report_of m c with
    | Some rep => report_min rep
    | None => GetMinResolvedTs m
    end.
Proof.
  destruct c; cbn.
  - unfold EmitRowChangedEvents. destruct (writer m); [|done].
    destruct (WriteLog _ _ _) as [? [? ?]]. by intros [= <- _].
  - unfold FlushLog. destruct (writer m); [|done].
    destruct (FlushLog_w _ _ _) as [? ?]. by intros [= <- _].
  - unfold EmitDDLEvent. destruct (writer m); [|done].
    destruct (SendDDL _ _) as [? ?]. by intros [= <- _].
  - unfold FlushResolvedAndCheckpointTs. destruct (writer m); [|done].
    destruct (EmitResolvedTs _ _) as [? [?|]]; [by intros [= <- _]|].
    destruct (EmitCheckpointTs _ _) as [? ?]. by intros [= <- _].
  - unfold AddTable. destruct (Search _ _); [|done]. cbn zeta.
    destruct (_ && _); cbn; [by intros [= <- _]|].
    destruct (rtsMap m); cbn; [by intros [= <- _] | done].
  - unfold RemoveTable. destruct (Search _ _); [|done]. cbn zeta.
    destruct (_ && _); cbn; by intros [= <- _].
  - unfold updateTableResolvedTs. destruct (writer m) as [w|]; [|done].
    destruct (GetCurrentResolvedTs w (tableIDs m)) as [w' [report [err|]]]; cbn.
    + by intros [= <- _].
    + destruct (rtsMap m) as [r|].
      * intros [= <- _]. cbn. apply range_fold_min.
      * destruct (decide (report = ∅)) as [->|]; [|done].
        intros [= <- _]. cbn. by rewrite report_min_empty.
Qed.

(** From a state whose published minimum is that of [rep0], a run whose
    reports continue the chain from [rep0] never shows a smaller value. *)
Lemma trace_bounded (cs : list (call Row DDL)) m (rep0 : gmap Z Z) :
  GetMinResolvedTs m = report_min rep0 →
  chain dominated (rep0 :: reports (trace m cs)) →
  Forall (λ v, (report_min rep0 ≤ v)%Z) (map snd (trace m cs))
  ∧ StronglySorted Z.le (map snd (trace m cs)).
Proof.
  revert m rep0. induction cs as [|c cs IH]; intros m rep0 Hmin Hch; cbn.
  { split; constructor. }
  destruct (exec_call m c) as [m' e|] eqn:Hex; cbn; [|split; constructor].
  pose proof (exec_call_min m c m' e Hex) as Hm'.
  unfold reports in *. cbn in Hch. rewrite Hex in Hch. cbn in Hch.
  destruct (report_of m c) as [rep|]; cbn in Hch.
  - destruct Hch as [Hdom Hch].
    apply report_min_dominated in Hdom.
    destruct (IH m' rep Hm' Hch) as [Hall Hs].
    rewrite Hm'. split.
    + constructor; [done|]. eapply Forall_impl; [exact Hall|]. cbn. lia.
    + by constructor.
  - rewrite Hmin in Hm'. destruct (IH m' rep0 Hm' Hch) as [Hall Hs].
    rewrite Hm'. split; [constructor; [lia | done] | by constructor].
Qed.

(** The background loop on [n] ticks, when no tick fails, is [n] calls of
    updateTableResolvedTs in a row. *)
Lemma run_as_ticks (n : nat) m m' :
  run (replicate n true) m = Returned m' [] →
  exec m (replicate n (CallTick : call Row DDL)) = Returned m' tt.
Proof.
  revert m. induction n as [|n IH]; intros m; cbn; [by intros [= <-]|].
  destruct (updateTableResolvedTs m) as [m1 [e|]|]; cbn; [done | apply IH | done].
Qed.

(** Along a run in which every report only names tables of the report
    before it, with timestamps that are not smaller, the values returned
    from the first publication on never decrease. *)
Lemma dominated_run_monotone m (cs : list (call Row DDL)) :
  chain dominated (reports (trace m cs)) →
  StronglySorted Z.le (published_values (trace m cs)).
Proof.
  revert m. induction cs as [|c cs IH]; intros m Hch; cbn; [constructor|].
  destruct (exec_call m c) as [m' e|] eqn:Hex; cbn; [|constructor].
  pose proof (exec_call_min m c m' e Hex) as Hm'.
  unfold reports in Hch. cbn in Hch. rewrite Hex in Hch. cbn in Hch.
  destruct (report_of m c) as [rep|]; cbn in Hch; [|by apply IH].
  destruct (trace_bounded cs m' rep Hm' Hch) as [Hall Hs].
  rewrite Hm'. by constructor.
Qed.

(** From a state whose published minimum is that of [rep0], the values a
    run shows stay in order exactly when no report of the run holds a
    timestamp below the minimum of the report before it. *)
Lemma trace_sorted_iff (cs : list (call Row DDL)) m (rep0 : gmap Z Z) :
  GetMinResolvedTs m = report_min rep0 →
  StronglySorted Z.le (report_min rep0 :: map snd (trace m cs))
  ↔ chain no_regress (rep0 :: reports (trace m cs)).
Proof.
  revert m rep0. induction cs as [|c cs IH]; intros m rep0 Hmin; cbn [trace].
  { cbn. split; [done | intros _; repeat constructor]. }
  destruct (exec_call m c) as [m' e|] eqn:Hex.
  2:{ cbn. split; [done | intros _; repeat constructor]. }
  pose proof (exec_call_min m c m' e Hex) as Hm'.
  unfold reports. cbn [map snd fst omap list_omap].
  destruct (report_of m c) as [rep|]; cbn [chain].
  - rewrite sorted_le_cons2, Hm', (IH m' rep Hm'), no_regress_iff. done.
  - rewrite Hmin in Hm'. rewrite sorted_le_cons2, Hm', (IH m' rep0 Hm').
    split; [by intros [_ ?] | by split; [lia|]].
Qed.

Lemma published_sorted_iff m (cs : list (call Row DDL)) :
  StronglySorted Z.le (published_values (trace m cs))
  ↔ chain no_regress (reports (trace m cs)).
Proof.
  revert m. induction cs as [|c cs IH]; intros m; cbn [trace].
  { cbn. split; [done | intros _; constructor]. }
  destruct (exec_call m c) as [m' e|] eqn:Hex.
  2:{ cbn. split; [done | intros _; constructor]. }
  pose proof (exec_call_min m c m' e Hex) as Hm'.
  unfold reports. cbn [published_values omap list_omap fst].
  destruct (report_of m c) as [rep|]; [|apply IH].
  rewrite Hm'. apply (trace_sorted_iff cs m' rep Hm').
Qed.

(** C1, as the code has it.  A call that returns leaves the value of
    GetMinResolvedTs as it was, unless it is a tick whose writer call
    succeeded: that tick stores the minimum of the report, whatever was
    published before.  The minimum of an empty report is 2^64 - 1; the
    minimum of a report is below no reported timestamp and is 2^64 - 1 or
    one of them.  So the values returned from the first publication on
    never decrease exactly when no report holds a timestamp below the
    minimum of the report before it; they never decrease, in particular,
    when every report only names tables of the report before it with
    timestamps that are not smaller. *)
Theorem published_minimum_monotone m (cs : list (call Row DDL)) :
  (∀ (c : call Row DDL) m' e, exec_call m c = Returned m' e →
             GetMinResolvedTs m'
             = match report_of m c with
               | Some rep => report_min rep
               | None => GetMinResolvedTs m
               end)
  ∧ (∀ c : call Row DDL, is_tick c = false → report_of m c = None)
  ∧ (∀ w w' report e,
       writer m = Some w →
       GetCurrentResolvedTs w (tableIDs m) = (w', (report, Some e)) →
       report_of m (CallTick : call Row DDL) = None
       ∧ ∃ m', updateTableResolvedTs m = Returned m' (Some e)
               ∧ GetMinResolvedTs m' = GetMinResolvedTs m)
  ∧ (∀ w w' report,
       writer m = Some w →
       GetCurrentResolvedTs w (tableIDs m) = (w', (report, None)) →
       report_of m (CallTick : call Row DDL) = Some report
       ∧ (is_Some (rtsMap m) ∨ report = ∅ →
          ∃ m', updateTableResolvedTs m = Returned m' None
                ∧ GetMinResolvedTs m' = report_min report))
  ∧ report_min ∅ = (2 ^ 64 - 1)%Z
  ∧ (∀ report,
       (report_min report ≤ 2 ^ 64 - 1)%Z
       ∧ (∀ t v, report !! t = Some v → (report_min report ≤ v)%Z)
       ∧ (report_min report = (2 ^ 64 - 1)%Z
          ∨ ∃ t, report !! t = Some (report_min report)))
  ∧ (StronglySorted Z.le (published_values (trace m cs))
     ↔ chain no_regress (reports (trace m cs)))
  ∧ (chain dominated (reports (trace m cs)) →
     StronglySorted Z.le (published_values (trace m cs))).
Proof.
  split_and!.
  - intros c m' e. apply exec_call_min.
  - intros c Hc. by destruct c.
  - intros w w' report e Hw Hget. unfold report_of, updateTableResolvedTs.
    rewrite Hw, Hget. cbn. split; [done|]. by eexists.
  - intros w w' report Hw Hget. split.
    + unfold report_of. by rewrite Hw, Hget.
    + intros Hmap.
      destruct (tick_publishes m w w' report Hw Hget Hmap) as (m' & Hm' & Hmin & _).
      by exists m'.
  - apply report_min_empty.
  - intros report.
    destruct (range_fold_spec ∅ MaxUint64 report) as (_ & Hmax & Hlow & Hatt).
    split_and!; [exact Hmax | exact Hlow | exact Hatt].
  - apply published_sorted_iff.
  - apply dominated_run_monotone.
Qed.

(** C10.  With no table tracked and an empty report from the writer, a tick
    returns without error and publishes 2^64 - 1. *)
Theorem tick_without_tables m (w w' : W) :
  writer m = Some w → tableIDs m = [] →
  GetCurrentResolvedTs w [] = (w', (∅, None)) →
  ∃ m', updateTableResolvedTs m = Returned m' None
        ∧ GetMinResolvedTs m' = (2 ^ 64 - 1)%Z.
Proof.
  intros Hw Hids Hget. rewrite <- Hids in Hget.
  destruct (tick_publishes m w w' ∅ Hw Hget) as (m' & Hm' & Hmin & _); [by right|].
  exists m'. split; [done|]. by rewrite Hmin, report_min_empty.
Qed.

(** C5.  Tables 1, 2, 3 are added with start timestamps 100, 200, 150; the
    writer, asked about [1; 2; 3], reports 120, 220, 160: the tick publishes
    120.  After RemoveTable(1) the writer is asked about [2; 3] and reports
    220, 160: the tick publishes 160. *)
Theorem min_resolved_ts_scenario m (w0 w1 w2 : W) :
  tableIDs m = [] → rtsMap m = Some ∅ → writer m = Some w0 →
  GetCurrentResolvedTs w0 [1; 2; 3]%Z
    = (w1, ({[1 := 120; 2 := 220; 3 := 160]}%Z, None)) →
  GetCurrentResolvedTs w1 [2; 3]%Z = (w2, ({[2 := 220; 3 := 160]}%Z, None)) →
  ∃ m1 m2,
    exec m [CallAddTable 1 100; CallAddTable 2 200; CallAddTable 3 150; CallTick]%Z
      = Returned m1 tt
    ∧ GetMinResolvedTs m1 = 120%Z
    ∧ exec m1 [CallRemoveTable 1; CallTick]%Z = Returned m2 tt
    ∧ GetMinResolvedTs m2 = 160%Z.
Proof.
  intros Hids Hr Hw H1 H2. destruct m as [en lv st wr mn ids rm]. cbn in *. subst.
  eexists _, _. split_and!.
  - cbn. rewrite H1. cbn. reflexivity.
  - vm_compute. reflexivity.
  - cbn. rewrite H2. cbn. reflexivity.
  - vm_compute. reflexivity.
Qed.

End ticks.

(** ** Construction and the disabled manager *)

Lemma IsValidConsistentLevel_spec (l : string) :
  IsValidConsistentLevel l = true
  ↔ l = consistentLevelNormal ∨ l = consistentLevelEventual.
Proof.
  unfold IsValidConsistentLevel.
  destruct (String.eqb_spec l consistentLevelNormal);
    destruct (String.eqb_spec l consistentLevelEventual); intuition congruence.
Qed.

Lemma IsValidConsistentStorage_spec (st : string) :
  IsValidConsistentStorage st = true
  ↔ st = consistentStorageLocal ∨ st = consistentStorageS3
    ∨ st = consistentStorageBlackhole.
Proof.
  unfold IsValidConsistentStorage.
  destruct (String.eqb_spec st consistentStorageLocal);
    destruct (String.eqb_spec st consistentStorageS3);
    destruct (String.eqb_spec st consistentStorageBlackhole); intuition congruence.
Qed.

Section construction.
Context {W Row RedoRow DDL RedoDDL URL : Type}.
Context `{!RedoLogWriter W RedoRow RedoDDL}.
Context `{!Collaborators W Row RedoRow DDL RedoDDL URL}.

(** C4, as the code has it.  NewManager looks at Level only to tell
    [normal] from the rest: a nil config or Level = normal gives the
    disabled manager, whatever Storage is.  For any other Level, valid or
    not, it fails with ErrConsistentStorage exactly when Storage is outside
    {local, s3, blackhole}, and with ErrInvalidS3URI when Storage is s3 and
    the S3 URI does not parse; with Storage = blackhole and options given
    it succeeds with an enabled manager that records the Level as it came.
    The two validity predicates accept exactly the listed values. *)
Theorem NewManager_validation (ctx : Ctx) (cfg : ConsistentConfig)
    (opts : option ManagerOptions) :
  (Level cfg = consistentLevelNormal →
   NewManager ctx (Some cfg) opts = NewOk NewDisabledManager false)
  ∧ NewManager ctx None opts = NewOk NewDisabledManager false
  ∧ (Level cfg ≠ consistentLevelNormal →
     IsValidConsistentStorage (Storage cfg) = false →
     NewManager ctx (Some cfg) opts = NewErr (ErrConsistentStorage (Storage cfg)))
  ∧ (Level cfg ≠ consistentLevelNormal →
     ∀ e, NewManager ctx (Some cfg) opts = NewErr (ErrConsistentStorage e) →
          IsValidConsistentStorage (Storage cfg) = false)
  ∧ (Level cfg ≠ consistentLevelNormal →
     Storage cfg = consistentStorageBlackhole →
     ∀ o, opts = Some o →
          NewManager ctx (Some cfg) opts
          = NewOk (enabled_manager cfg NewBlackHoleWriter) (EnableBgRunner o))
  ∧ (Level cfg ≠ consistentLevelNormal →
     Storage cfg = consistentStorageS3 →
     ∀ cause, url_Parse (S3URI cfg) = inr cause →
              NewManager ctx (Some cfg) opts = NewErr (ErrInvalidS3URI cause))
  ∧ (∀ l, IsValidConsistentLevel l = true
          ↔ l = consistentLevelNormal ∨ l = consistentLevelEventual)
  ∧ (∀ st, IsValidConsistentStorage st = true
           ↔ st = consistentStorageLocal ∨ st = consistentStorageS3
             ∨ st = consistentStorageBlackhole).
Proof.
  split_and!.
  - intros Hl. unfold NewManager. by rewrite Hl.
  - done.
  - intros Hl Hst. unfold NewManager.
    rewrite (proj2 (String.eqb_neq _ _) Hl).
    unfold IsValidConsistentStorage in Hst.
    destruct (String.eqb (Storage cfg) consistentStorageLocal); [done|].
    destruct (String.eqb (Storage cfg) consistentStorageS3); [done|].
    by destruct (String.eqb (Storage cfg) consistentStorageBlackhole).
  - intros Hl e. unfold NewManager, IsValidConsistentStorage.
    rewrite (proj2 (String.eqb_neq _ _) Hl).
    destruct (String.eqb (Storage cfg) consistentStorageBlackhole).
    { by destruct opts. }
    destruct (String.eqb (Storage cfg) consistentStorageLocal); cbn.
    { destruct (String.eqb (Storage cfg) consistentStorageS3);
        [destruct (url_Parse _)|]; by destruct opts. }
    destruct (String.eqb (Storage cfg) consistentStorageS3); cbn; [|done].
    destruct (url_Parse _); by destruct opts.
  - intros Hl Hst o ->. unfold NewManager.
    by rewrite (proj2 (String.eqb_neq _ _) Hl), Hst.
  - intros Hl Hst cause Hparse. unfold NewManager.
    by rewrite (proj2 (String.eqb_neq _ _) Hl), Hst, Hparse.
  - apply IsValidConsistentLevel_spec.
  - apply IsValidConsistentStorage_spec.
Qed.

(** C3, as the code has it.  The manager built for a nil config or for
    Level = normal is the zero value: Enabled() is false, there is no
    writer to invoke and no rtsMap.  No method tests [enabled]; callers are
    to.  GetMinResolvedTs returns 0 and RemoveTable returns with the state
    unchanged; the four operations that go to the writer fault on the nil
    writer instead of returning, and AddTable faults on the nil rtsMap
    after it has put the id into tableIDs. *)
Theorem disabled_manager_operations (ctx : Ctx) (cfg : option ConsistentConfig)
    (opts : option ManagerOptions) :
  (cfg = None ∨ ∃ c, cfg = Some c ∧ Level c = consistentLevelNormal) →
  let m : ManagerImpl W := NewDisabledManager in
  NewManager ctx cfg opts = NewOk m false
  ∧ Enabled m = false
  ∧ writer m = None
  ∧ GetMinResolvedTs m = 0%Z
  ∧ (∀ t, RemoveTable m t = Returned m tt)
  ∧ (∀ t (rows : list Row), EmitRowChangedEvents m t rows = Panicked m NilDereference)
  ∧ (∀ t rts, FlushLog m t rts = Panicked m NilDereference)
  ∧ (∀ ddl : DDL, EmitDDLEvent m ddl = Panicked m NilDereference)
  ∧ (∀ r c, FlushResolvedAndCheckpointTs m r c = Panicked m NilDereference)
  ∧ (∀ t s, AddTable m t s = Panicked (set_tableIDs m [t]) NilMapAssignment).
Proof.
  intros Hcfg m. split_and!; try done.
  destruct Hcfg as [->|(c & -> & Hl)]; [done|].
  unfold NewManager. by rewrite Hl.
Qed.

End construction.

(** *** Scenarios on the scenario writer *)

Lemma table_bookkeeping_invariant_witness :
  ∃ m' r,
    exec (scenario_manager ∅)
      [CallAddTable 3 150; CallAddTable 1 100; CallAddTable 3 999;
       CallRemoveTable 7; CallAddTable 2 200; CallRemoveTable 3]%Z
      = Returned m' tt
    ∧ rtsMap m' = Some r
    ∧ dom r = list_to_set (tableIDs m')
    ∧ StronglySorted Z.lt (tableIDs m')
    ∧ (∀ t s, t ∈ tableIDs m' → AddTable m' t s = Returned m' tt)
    ∧ (∀ t, t ∉ tableIDs m' → RemoveTable m' t = Returned m' tt).
Proof.
  refine (proj1 (table_bookkeeping_invariant scenario_ctx (Some scenario_cfg)
                   (Some scenario_opts) (scenario_manager ∅) false _ _) _ _);
    reflexivity.
Defined.

(** C2, as stated, fails on a redo manager that is disabled.  On the
    manager NewManager returns for a nil config, AddTable(1, 100) puts 1
    into tableIDs and faults on the nil rtsMap: tableIDs is [1] while
    rtsMap has no key. *)
Lemma bookkeeping_breaks_when_disabled :
  NewManager scenario_ctx None (Some scenario_opts)
  = NewOk (NewDisabledManager : ManagerImpl (gmap Z Z)) false
  ∧ exec (NewDisabledManager : ManagerImpl (gmap Z Z)) [CallAddTable 1 100]%Z
    = Panicked (set_tableIDs NewDisabledManager [1%Z]) NilMapAssignment
  ∧ tableIDs (state_of (exec (NewDisabledManager : ManagerImpl (gmap Z Z))
                          [CallAddTable 1 100]%Z)) = [1%Z]
  ∧ rtsMap (state_of (exec (NewDisabledManager : ManagerImpl (gmap Z Z))
                        [CallAddTable 1 100]%Z)) = None
  ∧ default ∅ (dom <$> rtsMap (state_of (exec (NewDisabledManager : ManagerImpl (gmap Z Z))
                                           [CallAddTable 1 100]%Z)))
    ≠ (list_to_set
         (tableIDs (state_of (exec (NewDisabledManager : ManagerImpl (gmap Z Z))
                                [CallAddTable 1 100]%Z))) : gset Z)
  ∧ ¬ tables_inv (state_of (exec (NewDisabledManager : ManagerImpl (gmap Z Z))
                              [CallAddTable 1 100]%Z)).
Proof.
  split_and!; [reflexivity | reflexivity | reflexivity | reflexivity | |].
  - intros Heq. apply (f_equal (λ X : gset Z, bool_decide (1%Z ∈ X))) in Heq.
    vm_compute in Heq. discriminate Heq.
  - intros (r & Hr & _). discriminate Hr.
Qed.

(** C1, as stated, fails.  Table 2 is added and flushed at 200 and a tick
    publishes 200; then table 1 is added and flushed at 100, and the next
    tick publishes 100: GetMinResolvedTs went from 200 down to 100. *)
Lemma min_resolved_ts_can_decrease :
  published_values
    (trace (scenario_manager ∅)
       [CallAddTable 2 200; CallFlushLog 2 200; CallTick;
        CallAddTable 1 100; CallFlushLog 1 100; CallTick]%Z)
  = [200; 200; 200; 100]%Z
  ∧ ¬ StronglySorted Z.le
        (published_values
           (trace (scenario_manager ∅)
              [CallAddTable 2 200; CallFlushLog 2 200; CallTick;
               CallAddTable 1 100; CallFlushLog 1 100; CallTick]%Z)).
Proof.
  assert (published_values
            (trace (scenario_manager ∅)
               [CallAddTable 2 200; CallFlushLog 2 200; CallTick;
                CallAddTable 1 100; CallFlushLog 1 100; CallTick]%Z)
          = [200; 200; 200; 100]%Z) as Heq by (vm_compute; reflexivity).
  split; [exact Heq|]. rewrite Heq. intros Hs.
  apply StronglySorted_inv in Hs as [_ Hall].
  rewrite Forall_forall in Hall. specialize (Hall 100%Z).
  assert (200 ≤ 100)%Z; [|lia]. apply Hall. set_solver.
Qed.

Lemma published_minimum_monotone_witness :
  StronglySorted Z.le
    (published_values
       (trace (scenario_manager ∅)
          [CallAddTable 1 100; CallFlushLog 1 100; CallTick;
           CallAddTable 2 200; CallFlushLog 2 200; CallTick;
           CallFlushLog 1 130; CallTick; CallRemoveTable 1; CallTick]%Z)).
Proof.
  refine (proj2 (proj1 (proj2 (proj2 (proj2 (proj2 (proj2 (proj2
            (published_minimum_monotone (scenario_manager ∅) _)))))))) _).
  apply (bool_decide_unpack _). vm_compute. reflexivity.
Defined.

Lemma tick_without_tables_witness :
  ∃ m', updateTableResolvedTs (scenario_manager ∅) = Returned m' None
        ∧ GetMinResolvedTs m' = (2 ^ 64 - 1)%Z.
Proof.
  apply (tick_without_tables (scenario_manager ∅) ∅ ∅); reflexivity.
Defined.

Lemma min_resolved_ts_scenario_witness :
  ∃ m1 m2,
    exec (scenario_manager {[1 := 120; 2 := 220; 3 := 160]}%Z)
      [CallAddTable 1 100; CallAddTable 2 200; CallAddTable 3 150; CallTick]%Z
      = Returned m1 tt
    ∧ GetMinResolvedTs m1 = 120%Z
    ∧ exec m1 [CallRemoveTable 1; CallTick]%Z = Returned m2 tt
    ∧ GetMinResolvedTs m2 = 160%Z.
Proof.
  apply (min_resolved_ts_scenario
           (scenario_manager {[1 := 120; 2 := 220; 3 := 160]}%Z)
           {[1 := 120; 2 := 220; 3 := 160]}%Z
           {[1 := 120; 2 := 220; 3 := 160]}%Z
           {[1 := 120; 2 := 220; 3 := 160]}%Z); vm_compute; reflexivity.
Defined.

(** C4, as stated, fails: a config whose Level is outside {normal,
    eventual} and whose Storage is blackhole is accepted, and the manager
    comes out enabled. *)
Lemma NewManager_accepts_unknown_level :
  IsValidConsistentLevel "bogus" = false
  ∧ NewManager scenario_ctx
      (Some {| Level := "bogus"; Storage := "blackhole"; MaxLogSize := 64;
               FlushIntervalInMs := 1000; S3URI := "" |})
      (Some scenario_opts)
    = NewOk {| enabled := true; level := "bogus"; storage := "blackhole";
               writer := Some (∅ : gmap Z Z); minResolvedTs := 0; tableIDs := [];
               rtsMap := Some ∅ |} false.
Proof. split; reflexivity. Qed.

Lemma NewManager_validation_witness :
  NewManager scenario_ctx
    (Some {| Level := "eventual"; Storage := "tape"; MaxLogSize := 64;
             FlushIntervalInMs := 1000; S3URI := "" |})
    (Some scenario_opts)
  = (NewErr (ErrConsistentStorage "tape") : @new_result (gmap Z Z)).
Proof.
  apply (NewManager_validation scenario_ctx
           {| Level := "eventual"; Storage := "tape"; MaxLogSize := 64;
              FlushIntervalInMs := 1000; S3URI := "" |}
           (Some scenario_opts)); [discriminate | reflexivity].
Defined.

(** C3, as stated, fails: on the manager built for a nil config,
    EmitRowChangedEvents does not return, and AddTable neither returns nor
    leaves the state as it was. *)
Lemma disabled_manager_is_not_inert :
  NewManager scenario_ctx None (Some scenario_opts)
  = NewOk (NewDisabledManager : ManagerImpl (gmap Z Z)) false
  ∧ returned (EmitRowChangedEvents (NewDisabledManager : ManagerImpl (gmap Z Z)) 1 [tt])
    = false
  ∧ returned (AddTable (NewDisabledManager : ManagerImpl (gmap Z Z)) 1 100) = false
  ∧ tableIDs (state_of (AddTable (NewDisabledManager : ManagerImpl (gmap Z Z)) 1 100))
    = [1%Z]
  ∧ tableIDs (NewDisabledManager : ManagerImpl (gmap Z Z)) = [].
Proof. split_and!; reflexivity. Qed.

Lemma disabled_manager_operations_witness :
  RemoveTable (NewDisabledManager : ManagerImpl (gmap Z Z)) 1
  = Returned NewDisabledManager tt.
Proof.
  apply (disabled_manager_operations scenario_ctx
           (Some {| Level := "normal"; Storage := "blackhole"; MaxLogSize := 64;
                    FlushIntervalInMs := 1000; S3URI := "" |})
           (Some scenario_opts)).
  right. eexists. split; reflexivity.
Defined.

End RedoFacts.

(** ** strings.Contains *)

Lemma has_prefix_app (p s : string) : has_prefix p (p +:+ s) = true.
Proof.
  induction p as [|c p IH]; [done|].
  simpl. by rewrite Ascii.eqb_refl, IH.
Qed.

Lemma has_prefix_app_l (p t b : string) :
  has_prefix p t = true → has_prefix p (t +:+ b) = true.
Proof.
  revert t. induction p as [|c p IH]; intros t; [done|].
  destruct t as [|d t]; [done|]. simpl.
  intros [-> Hp]%andb_true_iff. by rewrite (IH _ Hp).
Qed.

Lemma contains_unfold (s sub : string) :
  contains s sub
  = has_prefix sub s || match s with
                        | EmptyString => false
                        | String _ s' => contains s' sub
                        end.
Proof. by destruct s. Qed.

Lemma has_prefix_refl (s : string) : has_prefix s s = true.
Proof.
  induction s as [|c s IH]; [done|].
  simpl. by rewrite Ascii.eqb_refl.
Qed.

Lemma contains_self (s : string) : contains s s = true.
Proof. rewrite contains_unfold. by rewrite has_prefix_refl. Qed.

Lemma contains_app_r (a t sub : string) :
  contains t sub = true → contains (a +:+ t) sub = true.
Proof.
  intros Ht. induction a as [|c a IH]; [done|].
  rewrite contains_unfold. simpl. rewrite IH. apply orb_true_r.
Qed.

Lemma contains_app_l (t b sub : string) :
  contains t sub = true → contains (t +:+ b) sub = true.
Proof.
  induction t as [|c t IH]; rewrite contains_unfold.
  - rewrite orb_false_r. intros Hp. destruct sub; [|done].
    by rewrite contains_unfold.
  - intros [Hp|Ht]%orb_true_iff; rewrite contains_unfold.
    + by rewrite (has_prefix_app_l _ _ _ Hp).
    + simpl. rewrite (IH Ht). apply orb_true_r.
Qed.

Module SinkFacts.
Import Sink.

(** *** Clone *)

Lemma Clone_spec (h : heap) (s q : nat) (h' : heap) :
  heap_wf h → Clone h s = Some (q, h') →
  q ≠ s
  ∧ cells h' !! q = cells h !! s
  ∧ (∀ p, p ≠ q → cells h' !! p = cells h !! p)
  ∧ heap_wf h'.
Proof.
  unfold Clone. intros Hwf Hc.
  destruct (cells h !! s) as [v|] eqn:Hs; [|done]. cbn in Hc.
  injection Hc as <- <-. cbn.
  pose proof (Hwf _ _ Hs). split_and!.
  - lia.
  - by rewrite lookup_insert_eq.
  - intros p Hp. by rewrite lookup_insert_ne.
  - intros p w. cbn. destruct (decide (fresh h = p)) as [<-|Hne].
    + lia.
    + rewrite lookup_insert_ne by done. intros ?%Hwf. lia.
Qed.

Lemma assign_spec (h : heap) (p : nat) (f : sinkParams → sinkParams) (h' : heap) :
  assign h p f = Some h' →
  cells h' !! p = f <$> cells h !! p
  ∧ ∀ q, q ≠ p → cells h' !! q = cells h !! q.
Proof.
  unfold assign. destruct (cells h !! p) as [v|]; [|done]. cbn.
  intros [= <-]. cbn. split; [by rewrite lookup_insert_eq|].
  intros q Hq. by rewrite lookup_insert_ne.
Qed.

(** Whatever is assigned through a clone, the record it was cloned from
    reads as before. *)
Lemma Clone_isolated (h : heap) (s q : nat) (h1 h2 : heap)
    (f : sinkParams → sinkParams) :
  heap_wf h → Clone h s = Some (q, h1) → assign h1 q f = Some h2 →
  cells h2 !! s = cells h !! s ∧ cells h2 !! q = f <$> cells h !! s.
Proof.
  intros Hwf Hc Ha.
  destruct (Clone_spec _ _ _ _ Hwf Hc) as (Hne & Hq & Hother & _).
  destruct (assign_spec _ _ _ _ Ha) as [Hq2 Hother2].
  split.
  - rewrite Hother2 by done. apply Hother. done.
  - by rewrite Hq2, Hq.
Qed.

(** C6.  [param1 = defaultParams.Clone(); param2 = param1.Clone()], then
    changefeedID, batchReplaceEnabled and maxTxnRow are assigned through
    [param2]: [param1] still reads as the default record, [param2] reads as
    the default record with exactly those three fields changed, and the
    record behind [defaultParams] is as it was. *)
Theorem clone_isolation :
  ∃ param1 param2 h,
    clone_isolation_run = Some (param1, param2, h)
    ∧ param1 ≠ param2
    ∧ cells h !! param1
      = Some {| workerCount := 16; maxTxnRow := 256; tidbTxnMode := "optimistic";
                changefeedID := EmptyString; captureAddr := EmptyString;
                batchReplaceEnabled := true; batchReplaceSize := 20;
                readTimeout := "2m"; writeTimeout := "2m"; dialTimeout := "2s";
                timezone := EmptyString; tlsMaterial := None; safeMode := false |}
    ∧ cells h !! param2
      = Some {| workerCount := 16; maxTxnRow := 1; tidbTxnMode := "optimistic";
                changefeedID := "123"; captureAddr := EmptyString;
                batchReplaceEnabled := false; batchReplaceSize := 20;
                readTimeout := "2m"; writeTimeout := "2m"; dialTimeout := "2s";
                timezone := EmptyString; tlsMaterial := None; safeMode := false |}
    ∧ cells h !! defaultParams = Some defaultParamsValue
    ∧ cells h !! param1 = cells initial_heap !! defaultParams.
Proof.
  exists 1, 2. eexists. split; [vm_compute; reflexivity|].
  split_and!; [lia | reflexivity..].
Qed.

(** *** Parsing *)

Ltac invert_rbind H :=
  repeat match type of H with
         | rbind ?r _ = Ok _ =>
             let E := fresh "E" in destruct r eqn:E; [cbn [rbind] in H | discriminate H]
         end.

(** What a successful parse says about the fields the DSN is rendered
    from. *)
Lemma parseSinkURIToParams_inv (uri : URL) (opts : gmap string string) (p : sinkParams) :
  parseSinkURIToParams (Some uri) opts = Ok p →
  (Scheme uri = "mysql" ∨ Scheme uri = "tidb")
  ∧ timezone p = timezone_param (RawQuery uri)
  ∧ txn_mode_param (RawQuery uri) = Ok (tidbTxnMode p)
  ∧ duration_param (RawQuery uri) "read-timeout" defaultReadTimeout = Ok (readTimeout p)
  ∧ duration_param (RawQuery uri) "write-timeout" defaultWriteTimeout = Ok (writeTimeout p)
  ∧ duration_param (RawQuery uri) "timeout" defaultDialTimeout = Ok (dialTimeout p).
Proof.
  unfold parseSinkURIToParams. intros H.
  destruct (String.eqb_spec (Scheme uri) "mysql") as [Hm|Hm];
    destruct (String.eqb_spec (Scheme uri) "tidb") as [Ht|Ht];
    cbn [orb negb] in H; try discriminate H;
    invert_rbind H; injection H as <-; cbn; auto 10.
Qed.

(** *** Rendering *)

Lemma join_amp_contains (l : list string) (x : string) :
  x ∈ l → contains (join_amp l) x = true.
Proof.
  induction l as [|y l IH]; [by intros ?%elem_of_nil|].
  intros [->|Hx]%elem_of_cons.
  - destruct l; [apply contains_self|].
    cbn [join_amp]. apply contains_app_l, contains_self.
  - destruct l as [|z l]; [by apply elem_of_nil in Hx|].
    cbn [join_amp]. by apply contains_app_r, contains_app_r, IH.
Qed.

(** Every parameter of the configuration shows in the DSN as
    [key=escaped value]. *)
Lemma FormatDSN_contains (cfg : Config) (k v : string) :
  Params cfg !! k = Some v →
  contains (FormatDSN cfg) (k +:+ "=" +:+ QueryEscape v) = true.
Proof.
  intros Hk. unfold FormatDSN. do 4 apply contains_app_r.
  assert ((k, v) ∈ merge_sort key_le (map_to_list (Params cfg))) as Hin.
  { rewrite merge_sort_Permutation. by apply elem_of_map_to_list. }
  destruct (merge_sort key_le (map_to_list (Params cfg))) as [|kv ps] eqn:Hs;
    [by apply elem_of_nil in Hin|].
  apply contains_app_r, join_amp_contains.
  by apply (list_elem_of_fmap_2 render_param _ (k, v)).
Qed.

Lemma generateDSNByParams_ok (base : Config) (p : sinkParams) (db : string → probe) :
  (∀ msg, db "allow_auto_random_explicit_insert" ≠ ProbeError msg) →
  generateDSNByParams base p db
  = Ok (FormatDSN (with_Params base (dsn_params base p))).
Proof.
  intros Hdb. unfold generateDSNByParams, checkTiDBVariable.
  destruct (db _) as [?| |msg] eqn:Hp; [done | done |].
  by destruct (Hdb msg).
Qed.

Lemma dsn_params_required (base : Config) (p : sinkParams) :
  dsn_params base p !! "tidb_txn_mode" = Some (tidbTxnMode p)
  ∧ dsn_params base p !! "readTimeout" = Some (readTimeout p)
  ∧ dsn_params base p !! "writeTimeout" = Some (writeTimeout p)
  ∧ dsn_params base p !! "allow_auto_random_explicit_insert" = Some "1".
Proof.
  unfold dsn_params.
  destruct (String.eqb (timezone p) EmptyString),
           (String.eqb (dialTimeout p) defaultDialTimeout);
    split_and!;
    repeat (rewrite lookup_insert_ne by done); by rewrite lookup_insert_eq.
Qed.

Lemma dsn_params_time_zone (base : Config) (p : sinkParams) :
  dsn_params base p !! "time_zone"
  = if String.eqb (timezone p) EmptyString then Params base !! "time_zone"
    else Some (timezone p).
Proof.
  unfold dsn_params.
  destruct (String.eqb (timezone p) EmptyString),
           (String.eqb (dialTimeout p) defaultDialTimeout);
    repeat (rewrite lookup_insert_ne by done); by rewrite ?lookup_insert_eq.
Qed.

Lemma dsn_params_timeout (base : Config) (p : sinkParams) :
  dsn_params base p !! "timeout"
  = if String.eqb (dialTimeout p) defaultDialTimeout then Params base !! "timeout"
    else Some (dialTimeout p).
Proof.
  unfold dsn_params.
  destruct (String.eqb (timezone p) EmptyString),
           (String.eqb (dialTimeout p) defaultDialTimeout);
    repeat (rewrite lookup_insert_ne by done); by rewrite ?lookup_insert_eq.
Qed.

(** C7.  For a sink URI that parses, the timezone parameter is the
    double-quoted Asia/Shanghai for time-zone=Asia/Shanghai (and the
    double-quoted value for any non-empty value), the empty string for an
    empty value, and the double-quoted UTC when the key is absent.
    Rendered over a base DSN that has no time_zone of its own, the DSN gets
    the time_zone parameter exactly when the timezone parameter is not
    empty, and then shows it as time_zone=escaped value; with the default
    parameters over the base DSN of the tests the text time_zone does not
    occur. *)
Theorem timezone_parameter (uri : URL) (opts : gmap string string) (p : sinkParams)
    (base : Config) (db : string → probe) :
  parseSinkURIToParams (Some uri) opts = Ok p →
  Params base !! "time_zone" = None →
  (∀ msg, db "allow_auto_random_explicit_insert" ≠ ProbeError msg) →
  (query_get (RawQuery uri) "time-zone" = Some "Asia/Shanghai" →
   timezone p = dquote +:+ "Asia/Shanghai" +:+ dquote)
  ∧ (∀ v, query_get (RawQuery uri) "time-zone" = Some v → v ≠ EmptyString →
          timezone p = dquote +:+ v +:+ dquote)
  ∧ (query_get (RawQuery uri) "time-zone" = Some EmptyString →
     timezone p = EmptyString)
  ∧ (query_get (RawQuery uri) "time-zone" = None →
     timezone p = dquote +:+ "UTC" +:+ dquote)
  ∧ (∃ dsn, generateDSNByParams base p db = Ok dsn
            ∧ (is_Some (dsn_params base p !! "time_zone") ↔ timezone p ≠ EmptyString)
            ∧ (timezone p ≠ EmptyString →
               contains dsn ("time_zone=" +:+ QueryEscape (timezone p)) = true))
  ∧ (∃ dsn, generateDSNByParams test_dsn defaultParamsValue mockTestDB = Ok dsn
            ∧ contains dsn "time_zone" = false).
Proof.
  intros Hparse Hbase Hdb.
  destruct (parseSinkURIToParams_inv _ _ _ Hparse) as (_ & Htz & _).
  unfold timezone_param in Htz. split_and!.
  - intros Hq. by rewrite Htz, Hq.
  - intros v Hq Hv. rewrite Htz, Hq. by rewrite (proj2 (String.eqb_neq _ _) Hv).
  - intros Hq. by rewrite Htz, Hq.
  - intros Hq. by rewrite Htz, Hq.
  - eexists. split; [by apply generateDSNByParams_ok|].
    rewrite dsn_params_time_zone.
    destruct (String.eqb_spec (timezone p) EmptyString) as [He|Hne].
    + rewrite Hbase. split; [|done]. split; [by intros [? ?] | done].
    + split; [split; [done | by eexists]|]. intros _.
      apply (FormatDSN_contains _ "time_zone" (timezone p)). cbn [Params with_Params].
      rewrite dsn_params_time_zone. by rewrite (proj2 (String.eqb_neq _ _) Hne).
  - eexists. split; vm_compute; reflexivity.
Qed.

(** C8.  Whenever the probe of the downstream does not fail,
    generateDSNByParams returns a DSN that shows tidb_txn_mode,
    readTimeout, writeTimeout (each with the escaped value of the
    parameter) and allow_auto_random_explicit_insert=1; with the default
    parameters these read tidb_txn_mode=optimistic, readTimeout=2m,
    writeTimeout=2m.  Over a base DSN without a timeout of its own, the
    timeout parameter is set only for parameters parsed from a URI that
    gave timeout, and
    read-timeout=4m&write-timeout=5m&timeout=3m renders readTimeout=4m,
    writeTimeout=5m, timeout=3m. *)
Theorem dsn_required_parameters (base : Config) (p : sinkParams) (db : string → probe) :
  (∀ msg, db "allow_auto_random_explicit_insert" ≠ ProbeError msg) →
  (∃ dsn, generateDSNByParams base p db = Ok dsn
          ∧ contains dsn ("tidb_txn_mode=" +:+ QueryEscape (tidbTxnMode p)) = true
          ∧ contains dsn ("readTimeout=" +:+ QueryEscape (readTimeout p)) = true
          ∧ contains dsn ("writeTimeout=" +:+ QueryEscape (writeTimeout p)) = true
          ∧ contains dsn "allow_auto_random_explicit_insert=1" = true
          ∧ (p = defaultParamsValue →
             contains dsn "tidb_txn_mode=optimistic" = true
             ∧ contains dsn "readTimeout=2m" = true
             ∧ contains dsn "writeTimeout=2m" = true))
  ∧ (∀ uri opts, parseSinkURIToParams (Some uri) opts = Ok p →
                 Params base !! "timeout" = None →
                 is_Some (dsn_params base p !! "timeout") →
                 is_Some (query_get (RawQuery uri) "timeout"))
  ∧ (∃ p' dsn',
       parseSinkURIToParams
         (Some (mysql_uri [("read-timeout", "4m"); ("write-timeout", "5m");
                           ("timeout", "3m")])) ∅ = Ok p'
       ∧ generateDSNByParams test_dsn p' mockTestDB = Ok dsn'
       ∧ contains dsn' "readTimeout=4m" = true
       ∧ contains dsn' "writeTimeout=5m" = true
       ∧ contains dsn' "timeout=3m" = true).
Proof.
  intros Hdb. split_and!.
  - destruct (dsn_params_required base p) as (Hmode & Hrt & Hwt & Hauto).
    eexists. split; [by apply generateDSNByParams_ok|].
    split_and!.
    + by apply (FormatDSN_contains _ "tidb_txn_mode" (tidbTxnMode p)).
    + by apply (FormatDSN_contains _ "readTimeout" (readTimeout p)).
    + by apply (FormatDSN_contains _ "writeTimeout" (writeTimeout p)).
    + by apply (FormatDSN_contains _ "allow_auto_random_explicit_insert" "1").
    + intros ->. split_and!.
      * by apply (FormatDSN_contains _ "tidb_txn_mode" "optimistic").
      * by apply (FormatDSN_contains _ "readTimeout" "2m").
      * by apply (FormatDSN_contains _ "writeTimeout" "2m").
  - intros uri opts Hparse Hbase Hset.
    destruct (parseSinkURIToParams_inv _ _ _ Hparse) as (_ & _ & _ & _ & _ & Hdt).
    rewrite dsn_params_timeout in Hset.
    destruct (String.eqb_spec (dialTimeout p) defaultDialTimeout) as [He|Hne].
    { rewrite Hbase in Hset. by destruct Hset. }
    unfold duration_param in Hdt.
    destruct (query_get (RawQuery uri) "timeout"); [by eexists|].
    by injection Hdt as Hdt.
  - eexists _, _. split_and!; vm_compute; reflexivity.
Qed.

(** *** The tests as instances *)

(** TestParseSinkURIToParams. *)
Example parse_full_uri :
  parseSinkURIToParams
    (Some (mysql_uri [("worker-count", "64"); ("max-txn-row", "20");
                      ("batch-replace-enable", "true"); ("batch-replace-size", "50");
                      ("safe-mode", "true"); ("tidb-txn-mode", "pessimistic")]))
    {[OptChangefeedID := "cf-id"; OptCaptureAddr := "127.0.0.1:8300"]}
  = Ok {| workerCount := 64; maxTxnRow := 20; tidbTxnMode := "pessimistic";
          changefeedID := "cf-id"; captureAddr := "127.0.0.1:8300";
          batchReplaceEnabled := true; batchReplaceSize := 50;
          readTimeout := "2m"; writeTimeout := "2m"; dialTimeout := "2s";
          timezone := dquote +:+ "UTC" +:+ dquote; tlsMaterial := None;
          safeMode := true |}.
Proof. vm_compute. reflexivity. Qed.

(** TestParseSinkURITimezone. *)
Example parse_timezones :
  (λ q, timezone <$> (match parseSinkURIToParams (Some (mysql_uri q)) ∅ with
                      | Ok p => Some p
                      | Err _ => None
                      end))
  <$> [ [("time-zone", "Asia/Shanghai"); ("worker-count", "32")];
        [("time-zone", EmptyString); ("worker-count", "32")];
        [("worker-count", "32")] ]
  = [ Some (dquote +:+ "Asia/Shanghai" +:+ dquote);
      Some EmptyString;
      Some (dquote +:+ "UTC" +:+ dquote) ].
Proof. vm_compute. reflexivity. Qed.

(** TestParseSinkURIBadQueryString. *)
Example parse_bad_query_strings :
  is_err (parseSinkURIToParams None {[OptChangefeedID := "changefeed-01"]}) = true
  ∧ Forall (λ uri, is_err (parseSinkURIToParams (Some uri)
                             {[OptChangefeedID := "changefeed-01"]}) = true)
      [ {| Scheme := "postgre"; RawQuery := [] |};
        mysql_uri [("worker-count", "not-number")];
        mysql_uri [("max-txn-row", "not-number")];
        mysql_uri [("ssl-ca", "only-ca-exists")];
        mysql_uri [("batch-replace-enable", "not-bool")];
        mysql_uri [("batch-replace-enable", "true"); ("batch-replace-size", "not-number")];
        mysql_uri [("safe-mode", "not-bool")] ].
Proof. split; [reflexivity|]. repeat constructor. Qed.

(** TestCheckTiDBVariable. *)
Example check_tidb_variable :
  checkTiDBVariable (λ _, ProbeRow "0") "allow_auto_random_explicit_insert" "1" = Ok "1"
  ∧ checkTiDBVariable (λ _, ProbeNoRows) "no_exist_variable" "0" = Ok EmptyString
  ∧ is_err (checkTiDBVariable (λ _, ProbeError "sql: connection is already closed")
              "version" "5.7.25-TiDB-v4.0.0") = true.
Proof. split_and!; reflexivity. Qed.


Lemma timezone_parameter_witness :
  ∃ p, parseSinkURIToParams
         (Some (mysql_uri [("time-zone", "Asia/Shanghai"); ("worker-count", "32")])) ∅
       = Ok p
       ∧ timezone p = dquote +:+ "Asia/Shanghai" +:+ dquote.
Proof.
  eexists. split; [vm_compute; reflexivity|].
  refine (proj1 (timezone_parameter
                   (mysql_uri [("time-zone", "Asia/Shanghai"); ("worker-count", "32")])
                   ∅ _ test_dsn mockTestDB _ _ _) _);
    [vm_compute; reflexivity | reflexivity | intros msg; discriminate | reflexivity].
Defined.

Lemma dsn_required_parameters_witness :
  ∃ dsn, generateDSNByParams test_dsn defaultParamsValue mockTestDB = Ok dsn
         ∧ contains dsn ("tidb_txn_mode=" +:+ QueryEscape (tidbTxnMode defaultParamsValue)) = true
         ∧ contains dsn ("readTimeout=" +:+ QueryEscape (readTimeout defaultParamsValue)) = true
         ∧ contains dsn ("writeTimeout=" +:+ QueryEscape (writeTimeout defaultParamsValue)) = true
         ∧ contains dsn "allow_auto_random_explicit_insert=1" = true
         ∧ (defaultParamsValue = defaultParamsValue →
            contains dsn "tidb_txn_mode=optimistic" = true
            ∧ contains dsn "readTimeout=2m" = true
            ∧ contains dsn "writeTimeout=2m" = true).
Proof.
  apply (dsn_required_parameters test_dsn defaultParamsValue mockTestDB).
  intros msg. discriminate.
Defined.

End SinkFacts.

(** ** The table actor *)

Module PipelineFacts.
Import Pipeline.

(** A stopped actor processes no message: its whole state, the count of
    handled messages included, stays as it is. *)
Lemma handle_stopped (a : tableActor) (msg : Message) :
  stopped a = true → handle a msg = a.
Proof. unfold handle. by intros ->. Qed.

Lemma Poll_stopped (a : tableActor) (batch : list Message) :
  stopped a = true → Poll a batch = a.
Proof.
  unfold Poll. induction batch as [|msg batch IH]; [done|].
  intros Hs. cbn. rewrite (handle_stopped a msg Hs). by apply IH.
Qed.

(** The transition to stopped is one way. *)
Lemma Poll_stays_stopped (a : tableActor) (batch : list Message) :
  stopped a = true → stopped (Poll a batch) = true.
Proof. intros Hs. by rewrite Poll_stopped. Qed.

(** A batch with a Stop in it leaves the actor stopped. *)
Lemma Poll_stop (a : tableActor) (batch : list Message) :
  StopMessage ∈ batch → stopped (Poll a batch) = true.
Proof.
  unfold Poll. revert a. induction batch as [|msg batch IH]; intros a Hin.
  { by apply elem_of_nil in Hin. }
  cbn. destruct (stopped a) eqn:Hs.
  { rewrite (handle_stopped a msg Hs). by apply (Poll_stays_stopped a batch). }
  apply elem_of_cons in Hin as [<-|Hin]; [|by apply IH].
  apply (Poll_stays_stopped _ batch). unfold handle. by rewrite Hs.
Qed.

Ltac sys_simpl :=
  cbn [fst snd step router objects nextObject mailboxCap batchSize running negb] in *.

Lemma step_wf (sys : System) (ev : event) : system_wf sys → system_wf (step sys ev).
Proof.
  intros [Hr Ho]. destruct ev as [id a|id msg|id]; sys_simpl.
  - unfold Spawn. destruct (router sys !! id) eqn:Hid; [done|].
    split; sys_simpl.
    + intros id' addr mb. sys_simpl. destruct (decide (id = id')) as [<-|Hne].
      * rewrite lookup_insert_eq. intros [= <- _]. lia.
      * rewrite lookup_insert_ne by done. intros ?%Hr. lia.
    + intros addr b. sys_simpl. destruct (decide (nextObject sys = addr)) as [<-|Hne].
      * lia.
      * rewrite lookup_insert_ne by done. intros ?%Ho. lia.
  - unfold Send. destruct (running sys); [|done]. sys_simpl.
    destruct (router sys !! id) as [[addr mb]|] eqn:Hid; [|done].
    destruct (length mb <? mailboxCap sys); [|done]. split; [|done].
    intros id' addr' mb'. sys_simpl. destruct (decide (id = id')) as [<-|Hne].
    + rewrite lookup_insert_eq. intros [= <- _]. by eapply Hr.
    + rewrite lookup_insert_ne by done. apply Hr.
  - unfold poll_actor.
    destruct (router sys !! id) as [[addr mb]|] eqn:Hid; [|done].
    destruct (objects sys !! addr) as [a|] eqn:Ha; [|done]. split.
    + intros id' addr' mb'. sys_simpl.
      destruct (stopped (Poll a (take (batchSize sys) mb))).
      * intros [_ ?]%lookup_delete_Some. by eapply Hr.
      * destruct (decide (id = id')) as [<-|Hne].
        -- rewrite lookup_insert_eq. intros [= <- _]. by eapply Hr.
        -- rewrite lookup_insert_ne by done. apply Hr.
    + intros addr' b. sys_simpl. destruct (decide (addr = addr')) as [<-|Hne].
      * intros _. by eapply Hr.
      * rewrite lookup_insert_ne by done. apply Ho.
Qed.

(** Nothing that happens to the system reaches an actor that has stopped
    and left the router. *)
Lemma step_retired (sys : System) (ev : event) (addr : nat) (a : tableActor) :
  system_wf sys → retired sys addr a → retired (step sys ev) addr a.
Proof.
  intros [Hr Ho] (Hobj & Hs & Hnr). pose proof (Ho _ _ Hobj) as Hlt.
  destruct ev as [id b|id msg|id]; sys_simpl.
  - unfold Spawn. destruct (router sys !! id) eqn:Hid; [done|].
    split_and!; sys_simpl; [| done |].
    + rewrite lookup_insert_ne by lia. done.
    + intros id' addr' mb. destruct (decide (id = id')) as [<-|Hne].
      * rewrite lookup_insert_eq. intros [= <- _]. lia.
      * rewrite lookup_insert_ne by done. apply Hnr.
  - unfold Send. destruct (running sys); [|done]. sys_simpl.
    destruct (router sys !! id) as [[addr0 mb]|] eqn:Hid; [|done].
    destruct (length mb <? mailboxCap sys); [|done].
    split_and!; sys_simpl; [done | done |].
    intros id' addr' mb'. destruct (decide (id = id')) as [<-|Hne].
    + rewrite lookup_insert_eq. intros [= <- _]. by eapply Hnr.
    + rewrite lookup_insert_ne by done. apply Hnr.
  - unfold poll_actor.
    destruct (router sys !! id) as [[addr0 mb]|] eqn:Hid; [|done].
    destruct (objects sys !! addr0) as [b|] eqn:Hb; [|done].
    pose proof (Hnr _ _ _ Hid) as Hne0.
    split_and!; sys_simpl; [by rewrite lookup_insert_ne | done |].
    intros id' addr' mb'.
    destruct (stopped (Poll b (take (batchSize sys) mb))).
    + intros [_ ?]%lookup_delete_Some. by eapply Hnr.
    + destruct (decide (id = id')) as [<-|Hne].
      * rewrite lookup_insert_eq. by intros [= <- _].
      * rewrite lookup_insert_ne by done. apply Hnr.
Qed.

Lemma steps_wf (evs : list event) (sys : System) :
  system_wf sys → system_wf (steps sys evs).
Proof.
  unfold steps. revert sys. induction evs as [|ev evs IH]; intros sys Hwf; [done|].
  cbn. by apply IH, step_wf.
Qed.

Lemma NewSystem_wf (cap batch : nat) : system_wf (NewSystem cap batch).
Proof.
  split; [intros id addr mb | intros addr a];
    unfold NewSystem; cbn [router objects]; rewrite lookup_empty; intros [=].
Qed.

Lemma steps_retired (evs : list event) (sys : System) (addr : nat) (a : tableActor) :
  system_wf sys → retired sys addr a → retired (steps sys evs) addr a.
Proof.
  unfold steps. revert sys. induction evs as [|ev evs IH]; intros sys Hwf Hret; [done|].
  cbn. apply IH; [by apply step_wf | by apply step_retired].
Qed.

(** Once an actor has stopped and left the router, it reads the same
    after any further events, and polling it on any messages changes
    nothing. *)
Lemma retired_forever (sys : System) (addr : nat) (a : tableActor) :
  system_wf sys → objects sys !! addr = Some a → stopped a = true →
  router sys = ∅ →
  (∀ evs, objects (steps sys evs) !! addr = Some a) ∧ (∀ msgs, Poll a msgs = a).
Proof.
  intros Hwf Hobj Hs Hr. split; [|intros msgs; by apply Poll_stopped].
  intros evs. apply (steps_retired evs sys addr a Hwf).
  split_and!; [done | done |]. intros id addr' mb. by rewrite Hr, lookup_empty.
Qed.

(** C9.  The actor for table 1 is spawned and the router delivers
    Barrier(2) and then Stop to its mailbox.  After at most two polls of
    the actor, whatever the batch size, [stopped] is true.  From then on
    no event of the system changes the actor: [stopped] stays true and the
    number of handled messages stays 2; the router has no entry for id 1
    and refuses further sends. *)
Theorem actor_stop (cap batch : nat) :
  2 ≤ cap → 1 ≤ batch →
  ∃ sys1 sys2 sys3 a,
    Spawn (NewSystem cap batch) 1 test_actor = (Some 0, sys1)
    ∧ Send sys1 1 (BarrierMessage 2) = (Delivered, sys2)
    ∧ Send sys2 1 StopMessage = (Delivered, sys3)
    ∧ objects (steps sys3 [EvPoll 1; EvPoll 1]) !! 0 = Some a
    ∧ stopped a = true
    ∧ barrierTs a = 2%Z
    ∧ handled a = 2
    ∧ (Send (steps sys3 [EvPoll 1; EvPoll 1]) 1 TickMessage).1 = NoSuchActor
    ∧ (∀ evs, objects (steps (steps sys3 [EvPoll 1; EvPoll 1]) evs) !! 0 = Some a)
    ∧ (∀ msgs, Poll a msgs = a).
Proof.
  intros Hcap Hbatch.
  destruct cap as [|[|cap]]; [lia | lia |].
  assert (∀ b, system_wf
                 (steps (NewSystem (S (S cap)) b)
                    [EvSpawn 1 test_actor; EvSend 1 (BarrierMessage 2);
                     EvSend 1 StopMessage; EvPoll 1; EvPoll 1])) as Hwf.
  { intros b. apply steps_wf, NewSystem_wf. }
  destruct batch as [|[|[|batch]]]; [lia |..];
    (eexists _, _, _, _;
     do 3 (split; [reflexivity|]);
     (split; [vm_compute; reflexivity|]);
     do 3 (split; [reflexivity|]);
     (split; [vm_compute; reflexivity|]);
     apply retired_forever;
       [apply Hwf | vm_compute; reflexivity | reflexivity | vm_compute; reflexivity]).
Qed.

Lemma actor_stop_witness :
  ∃ sys1 sys2 sys3 a,
    Spawn (NewSystem 8 1) 1 test_actor = (Some 0, sys1)
    ∧ Send sys1 1 (BarrierMessage 2) = (Delivered, sys2)
    ∧ Send sys2 1 StopMessage = (Delivered, sys3)
    ∧ objects (steps sys3 [EvPoll 1; EvPoll 1]) !! 0 = Some a
    ∧ stopped a = true
    ∧ barrierTs a = 2%Z
    ∧ handled a = 2
    ∧ (Send (steps sys3 [EvPoll 1; EvPoll 1]) 1 TickMessage).1 = NoSuchActor
    ∧ (∀ evs, objects (steps (steps sys3 [EvPoll 1; EvPoll 1]) evs) !! 0 = Some a)
    ∧ (∀ msgs, Poll a msgs = a).
Proof. apply (actor_stop 8 1); lia. Defined.

End PipelineFacts.

(** ** The redo manager beyond the bookkeeping: round trips, runs of calls,
    the background loop and construction *)

Module ManagerFacts.
Import Redo RedoFacts.

(** A strictly ascending list is determined by its elements. *)
Lemma sorted_unique (l1 l2 : list Z) :
  StronglySorted Z.lt l1 → StronglySorted Z.lt l2 →
  (∀ x, x ∈ l1 ↔ x ∈ l2) → l1 = l2.
Proof.
  intros H1. revert l2. induction H1 as [|a l1 H1 IH Ha]; intros l2 H2 Heq.
  - destruct l2 as [|b l2]; [done|].
    exfalso. apply (not_elem_of_nil b), Heq. left.
  - destruct H2 as [|b l2 H2 Hb].
    { exfalso. apply (not_elem_of_nil a), Heq. left. }
    rewrite Forall_forall in Ha, Hb.
    assert (a = b) as <-.
    { pose proof (proj1 (Heq a) ltac:(left)) as Hab.
      pose proof (proj2 (Heq b) ltac:(left)) as Hba.
      apply elem_of_cons in Hab as [?|Hab]; [done|].
      apply elem_of_cons in Hba as [?|Hba]; [done|].
      specialize (Ha _ Hba). specialize (Hb _ Hab). lia. }
    f_equal. apply IH; [done|]. intros x. split; intros Hx.
    + pose proof (proj1 (Heq x) ltac:(by right)) as Hx'.
      apply elem_of_cons in Hx' as [->|?]; [|done].
      specialize (Ha _ Hx). lia.
    + pose proof (proj2 (Heq x) ltac:(by right)) as Hx'.
      apply elem_of_cons in Hx' as [->|?]; [|done].
      specialize (Hb _ Hx). lia.
Qed.

Section effects.
Context {W : Type}.
Implicit Types m : ManagerImpl W.

Lemma manager_eta m : set_rtsMap (set_tableIDs m (tableIDs m)) (rtsMap m) = m.
Proof. by destruct m. Qed.

Lemma set_tables_twice m (a b : list Z) (x y : option (gmap Z Z)) :
  set_rtsMap (set_tableIDs (set_rtsMap (set_tableIDs m a) x) b) y
  = set_rtsMap (set_tableIDs m b) y.
Proof. done. Qed.

(** AddTable on a sorted slice and an allocated map. *)
Lemma AddTable_effect m (t s : Z) (r : gmap Z Z) :
  StronglySorted Z.lt (tableIDs m) → rtsMap m = Some r →
  ∃ ids', AddTable m t s
          = Returned (set_rtsMap (set_tableIDs m ids')
                        (Some (if decide (t ∈ tableIDs m) then r else <[t := s]> r))) tt
          ∧ StronglySorted Z.lt ids'
          ∧ ∀ x, x ∈ ids' ↔ x = t ∨ x ∈ tableIDs m.
Proof.
  intros Hs Hr. destruct (decide (t ∈ tableIDs m)) as [Hin|Hnin].
  - exists (tableIDs m). rewrite (AddTable_present m t s Hs Hin).
    rewrite <- Hr, manager_eta. split_and!; [done | done |].
    intros x. split; [by right | by intros [->|?]].
  - destruct (AddTable_absent m t s r Hs Hr Hnin) as (i & Hlo & Hhi & ->).
    eexists. split_and!; [done | by apply sorted_insert |].
    intros x. rewrite elem_of_app, elem_of_cons.
    rewrite <- (take_drop i (tableIDs m)) at 3. rewrite elem_of_app. tauto.
Qed.

Lemma RemoveTable_effect m (t : Z) :
  StronglySorted Z.lt (tableIDs m) →
  ∃ ids', RemoveTable m t
          = Returned (set_rtsMap (set_tableIDs m ids')
                        ((if decide (t ∈ tableIDs m) then delete t else id) <$> rtsMap m)) tt
          ∧ StronglySorted Z.lt ids'
          ∧ ∀ x, x ∈ ids' ↔ x ≠ t ∧ x ∈ tableIDs m.
Proof.
  intros Hs. destruct (decide (t ∈ tableIDs m)) as [Hin|Hnin].
  - destruct (RemoveTable_present m t Hs Hin) as (i & Hi & Hnth & Hl & Hr & ->).
    eexists. split_and!; [done | by apply sorted_delete |].
    assert (tableIDs m = take i (tableIDs m) ++ t :: drop (S i) (tableIDs m)) as Heq.
    { symmetry. apply take_drop_middle. rewrite <- Hnth.
      destruct (nth_lookup_or_length (tableIDs m) i 0%Z); [done | lia]. }
    intros x. rewrite Heq at 3. rewrite !elem_of_app, elem_of_cons.
    split; [intros [?|?]; (split; [by intros -> | tauto]) | tauto].
  - exists (tableIDs m). rewrite (RemoveTable_absent m t Hs Hnin).
    replace (id <$> rtsMap m) with (rtsMap m) by (by destruct (rtsMap m)).
    rewrite manager_eta. split_and!; [done | done |].
    intros x. split; [|tauto]. intros Hx. split; [by intros -> | done].
Qed.

End effects.

Section round_trips.
Context {W : Type}.
Implicit Types m : ManagerImpl W.

(** X1.  AddTable of an id that is not tracked puts it into tableIDs and
    records its start timestamp in rtsMap, keeping the invariant; a
    RemoveTable of the same id right after gives back the manager as it
    was, slice and map included. *)
Theorem add_then_remove_restores m (t s : Z) :
  tables_inv m → t ∉ tableIDs m →
  ∃ m1 r1, AddTable m t s = Returned m1 tt
           ∧ t ∈ tableIDs m1
           ∧ rtsMap m1 = Some r1 ∧ r1 !! t = Some s
           ∧ tables_inv m1
           ∧ RemoveTable m1 t = Returned m tt.
Proof.
  intros (r & Hr & Hdom & Hs) Hnin.
  destruct (AddTable_effect m t s r Hs Hr) as (ids1 & Hadd & Hs1 & Hin1).
  rewrite decide_False in Hadd by done.
  eexists _, _. split; [exact Hadd|]. cbn [tableIDs rtsMap set_rtsMap set_tableIDs].
  assert (t ∈ ids1) as Ht1 by (apply Hin1; by left).
  split_and!; [done | done | by rewrite lookup_insert_eq | |].
  - exists (<[t := s]> r). cbn. split_and!; [done | | done].
    apply set_eq. intros x.
    rewrite dom_insert_L, elem_of_union, elem_of_singleton, Hdom,
      !elem_of_list_to_set. by rewrite Hin1.
  - destruct (RemoveTable_effect
                (set_rtsMap (set_tableIDs m ids1) (Some (<[t := s]> r))) t)
      as (ids2 & -> & Hs2 & Hin2); [done|].
    cbn [tableIDs rtsMap set_rtsMap set_tableIDs] in *.
    rewrite decide_True by done. rewrite set_tables_twice. cbn [fmap option_fmap option_map].
    assert (ids2 = tableIDs m) as ->.
    { apply sorted_unique; [done | done |]. intros x. rewrite Hin2, Hin1.
      split; [intros [? [?|?]]; done | intros ?; split; [by intros -> | by right]]. }
    rewrite delete_insert_id.
    2:{ apply not_elem_of_dom. rewrite Hdom, elem_of_list_to_set. done. }
    by rewrite <- Hr, manager_eta.
Qed.

(** X2.  RemoveTable of a tracked id takes it out of tableIDs and of rtsMap,
    keeping the invariant; an AddTable of the same id with the timestamp
    rtsMap held for it gives back the manager as it was. *)
Theorem remove_then_add_restores m (t s : Z) (r : gmap Z Z) :
  tables_inv m → rtsMap m = Some r → r !! t = Some s →
  ∃ m1 r1, RemoveTable m t = Returned m1 tt
           ∧ (t ∉ tableIDs m1)
           ∧ rtsMap m1 = Some r1 ∧ r1 !! t = None
           ∧ tables_inv m1
           ∧ AddTable m1 t s = Returned m tt.
Proof.
  intros (r' & Hr' & Hdom & Hs) Hr Ht. rewrite Hr in Hr'. injection Hr' as <-.
  assert (t ∈ tableIDs m) as Hin.
  { rewrite <- (elem_of_list_to_set (C := gset Z)), <- Hdom. apply elem_of_dom. by eexists. }
  destruct (RemoveTable_effect m t Hs) as (ids1 & Hrem & Hs1 & Hin1).
  rewrite decide_True, Hr in Hrem by done. cbn [fmap option_fmap option_map] in Hrem.
  eexists _, _. split; [exact Hrem|]. cbn [tableIDs rtsMap set_rtsMap set_tableIDs].
  assert (t ∉ ids1) as Ht1 by (rewrite Hin1; tauto).
  split_and!; [done | done | by rewrite lookup_delete_eq | |].
  - exists (delete t r). cbn. split_and!; [done | | done].
    apply set_eq. intros x.
    rewrite dom_delete_L, elem_of_difference, elem_of_singleton, Hdom,
      !elem_of_list_to_set. rewrite Hin1. tauto.
  - destruct (AddTable_effect
                (set_rtsMap (set_tableIDs m ids1) (Some (delete t r))) t s (delete t r))
      as (ids2 & -> & Hs2 & Hin2); [done | done |].
    cbn [tableIDs rtsMap set_rtsMap set_tableIDs] in *.
    rewrite decide_False by done. rewrite set_tables_twice.
    assert (ids2 = tableIDs m) as ->.
    { apply sorted_unique; [done | done |]. intros x. rewrite Hin2, Hin1.
      split; [intros [->|[? ?]]; done |].
      intros ?. destruct (decide (x = t)); [by left | by right]. }
    rewrite insert_delete_id by done.
    by rewrite <- Hr, manager_eta.
Qed.

End round_trips.

Section runs.
Context {W Row RedoRow DDL RedoDDL URL : Type}.
Context `{!RedoLogWriter W RedoRow RedoDDL}.
Context `{!Collaborators W Row RedoRow DDL RedoDDL URL}.
Implicit Types m : ManagerImpl W.

(** What one bookkeeping call does to the slice and the map. *)
Lemma table_call_step m (c : call Row DDL) (r : gmap Z Z) :
  StronglySorted Z.lt (tableIDs m) → rtsMap m = Some r → is_table_call c = true →
  ∃ ids' r',
    exec_call m c = Returned (set_rtsMap (set_tableIDs m ids') (Some r')) None
    ∧ StronglySorted Z.lt ids'
    ∧ (∀ x, x ∈ ids' ↔ match c with
                        | CallAddTable t _ => x = t ∨ x ∈ tableIDs m
                        | CallRemoveTable t => x ≠ t ∧ x ∈ tableIDs m
                        | _ => False
                        end)
    ∧ r' = match c with
           | CallAddTable t s => if decide (t ∈ tableIDs m) then r else <[t := s]> r
           | CallRemoveTable t => if decide (t ∈ tableIDs m) then delete t r else r
           | _ => r
           end.
Proof.
  intros Hs Hr Hc. destruct c; try discriminate Hc; cbn [exec_call no_error].
  - destruct (AddTable_effect m tableID startTs r Hs Hr) as (ids' & -> & Hs' & Hin).
    eexists _, _. split_and!; [done | done | done | done].
  - destruct (RemoveTable_effect m tableID Hs) as (ids' & -> & Hs' & Hin).
    rewrite Hr. eexists _, _. split_and!; [ | done | done | done].
    cbn. by destruct (decide _).
Qed.

(** X3.  Two bookkeeping calls (AddTable or RemoveTable) that name different
    tables can be made in either order: the manager reached is the same. *)
Theorem table_calls_commute m (c1 c2 : call Row DDL) :
  StronglySorted Z.lt (tableIDs m) → is_Some (rtsMap m) →
  is_table_call c1 = true → is_table_call c2 = true →
  table_of c1 ≠ table_of c2 →
  exec m [c1; c2] = exec m [c2; c1].
Proof.
  intros Hs [r Hr] H1 H2 Hne.
  destruct (table_call_step m c1 r Hs Hr H1) as (ids1 & r1 & E1 & S1 & M1 & R1).
  destruct (table_call_step m c2 r Hs Hr H2) as (ids2 & r2 & E2 & S2 & M2 & R2).
  destruct (table_call_step (set_rtsMap (set_tableIDs m ids1) (Some r1)) c2 r1 S1 eq_refl H2)
    as (ids12 & r12 & E12 & S12 & M12 & R12).
  destruct (table_call_step (set_rtsMap (set_tableIDs m ids2) (Some r2)) c1 r2 S2 eq_refl H1)
    as (ids21 & r21 & E21 & S21 & M21 & R21).
  cbn [exec obind]. rewrite E1, E2. cbn [obind]. rewrite E12, E21. cbn [obind].
  rewrite !set_tables_twice. cbn [tableIDs set_rtsMap set_tableIDs] in *.
  assert (ids12 = ids21) as ->.
  { apply sorted_unique; [done | done |]. intros x. rewrite M12, M21.
    destruct c1 as [| | | |t1 s1|t1|], c2 as [| | | |t2 s2|t2|];
      try discriminate H1; try discriminate H2; cbn [table_of] in Hne;
      assert (t1 ≠ t2) as Ht by congruence;
      rewrite M1, M2; intuition congruence. }
  assert (r12 = r21) as ->; [|done].
  subst r12 r21 r1 r2.
  destruct c1 as [| | | |t1 s1|t1|], c2 as [| | | |t2 s2|t2|];
    try discriminate H1; try discriminate H2; cbn [table_of] in Hne;
    assert (t1 ≠ t2) as Ht by congruence;
    repeat case_decide;
    repeat match goal with
           | H : _ ∈ ids1 |- _ => apply M1 in H
           | H : _ ∈ ids2 |- _ => apply M2 in H
           | H : ¬ (_ ∈ ids1) |- _ => rewrite M1 in H
           | H : ¬ (_ ∈ ids2) |- _ => rewrite M2 in H
           end;
    try (exfalso; intuition congruence);
    try done;
    apply map_eq; intros k;
    destruct (decide (k = t1)), (decide (k = t2)); simplify_map_eq; done.
Qed.


(** What a returning call leaves alone. *)
Lemma exec_call_frame m (c : call Row DDL) m' (e : option error) :
  exec_call m c = Returned m' e →
  enabled m' = enabled m ∧ level m' = level m ∧ storage m' = storage m
  ∧ (is_tick c = false → minResolvedTs m' = minResolvedTs m)
  ∧ (is_table_call c = false → tableIDs m' = tableIDs m)
  ∧ (is_writer_call c = true → rtsMap m' = rtsMap m)
  ∧ (is_table_call c = true → writer m' = writer m ∧ e = None)
  ∧ (is_Some (rtsMap m') ↔ is_Some (rtsMap m)).
Proof.
  destruct c; cbn.
  - unfold EmitRowChangedEvents. destruct (writer m); [|done].
    destruct (WriteLog _ _ _) as [? [? ?]]. intros [= <- _]. by split_and!.
  - unfold FlushLog. destruct (writer m); [|done].
    destruct (FlushLog_w _ _ _) as [? ?]. intros [= <- _]. by split_and!.
  - unfold EmitDDLEvent. destruct (writer m); [|done].
    destruct (SendDDL _ _) as [? ?]. intros [= <- _]. by split_and!.
  - unfold FlushResolvedAndCheckpointTs. destruct (writer m); [|done].
    destruct (EmitResolvedTs _ _) as [? [?|]]; [intros [= <- _]; by split_and!|].
    destruct (EmitCheckpointTs _ _) as [? ?]. intros [= <- _]. by split_and!.
  - unfold AddTable. destruct (Search _ _); [|done]. cbn zeta.
    destruct (_ && _); cbn; [intros [= <- <-]; by split_and!|].
    destruct (rtsMap m) eqn:Hr; cbn; [|done]. intros [= <- <-]. cbn.
    by split_and!.
  - unfold RemoveTable. destruct (Search _ _); [|done]. cbn zeta.
    destruct (_ && _); cbn; intros [= <- <-]; cbn; split_and!; try done.
    apply fmap_is_Some.
  - unfold updateTableResolvedTs. destruct (writer m) as [w|]; [|done].
    destruct (GetCurrentResolvedTs w (tableIDs m)) as [w' [report [err|]]]; cbn.
    + intros [= <- _]. by split_and!.
    + destruct (rtsMap m) as [r|] eqn:Hr.
      * intros [= <- _]. cbn. by split_and!.
      * destruct (decide (report = ∅)) as [->|]; [|done].
        intros [= <- _]. cbn. rewrite Hr. by split_and!.
Qed.

(** Under any writer, a call on a manager that has its writer and its map
    returns, and leaves the slice ascending and inside the keys of the map. *)
Lemma tables_tracked_step m (c : call Row DDL) :
  tables_tracked m →
  ∃ m' e, exec_call m c = Returned m' e ∧ tables_tracked m'.
Proof.
  intros (r & Hr & [w Hw] & Hsub & Hs).
  destruct (is_table_call c) eqn:Hc.
  - destruct (table_call_step m c r Hs Hr Hc) as (ids' & r' & -> & Hs' & Hin & Hr').
    eexists _, _. split; [done|]. exists r'. cbn.
    split_and!; [done | by eexists | | done].
    intros x. rewrite elem_of_list_to_set, Hin. subst r'.
    destruct c as [| | | |t s|t|]; try discriminate Hc.
    + intros [->|Hx]; case_decide.
      * apply Hsub. by apply elem_of_list_to_set.
      * rewrite dom_insert_L. apply elem_of_union_l. by apply elem_of_singleton.
      * apply Hsub. by apply elem_of_list_to_set.
      * rewrite dom_insert_L. apply elem_of_union_r, Hsub. by apply elem_of_list_to_set.
    + intros [Hne Hx]. assert (x ∈ dom r) by (apply Hsub; by apply elem_of_list_to_set).
      case_decide; [|done]. rewrite dom_delete_L.
      apply elem_of_difference. split; [done|]. by rewrite elem_of_singleton.
  - destruct c as [t rows|t rts|ddl|rts cts| | |]; try discriminate Hc; cbn.
    + unfold EmitRowChangedEvents. rewrite Hw.
      destruct (WriteLog _ _ _) as [w' [? ?]]. eexists _, _. split; [done|].
      exists r. cbn. split_and!; [done | by eexists | done | done].
    + unfold FlushLog. rewrite Hw.
      destruct (FlushLog_w _ _ _) as [w' ?]. eexists _, _. split; [done|].
      exists r. cbn. split_and!; [done | by eexists | done | done].
    + unfold EmitDDLEvent. rewrite Hw.
      destruct (SendDDL _ _) as [w' ?]. eexists _, _. split; [done|].
      exists r. cbn. split_and!; [done | by eexists | done | done].
    + unfold FlushResolvedAndCheckpointTs. rewrite Hw.
      destruct (EmitResolvedTs _ _) as [w1 [?|]].
      { eexists _, _. split; [done|].
        exists r. cbn. split_and!; [done | by eexists | done | done]. }
      destruct (EmitCheckpointTs _ _) as [w2 ?]. eexists _, _. split; [done|].
      exists r. cbn. split_and!; [done | by eexists | done | done].
    + unfold updateTableResolvedTs. rewrite Hw.
      destruct (GetCurrentResolvedTs w (tableIDs m)) as [w' [report [err|]]]; cbn.
      { eexists _, _. split; [done|].
        exists r. cbn. split_and!; [done | by eexists | done | done]. }
      rewrite Hr. eexists _, _. split; [done|].
      eexists. cbn. split_and!; [done | by eexists | | done].
      destruct (range_fold_spec r MaxUint64 report) as (-> & _).
      rewrite dom_union_L. intros x Hx. apply elem_of_union_r. by apply Hsub.
Qed.

Lemma tables_tracked_exec m (cs : list (call Row DDL)) :
  tables_tracked m → ∃ m', exec m cs = Returned m' tt ∧ tables_tracked m'.
Proof.
  revert m. induction cs as [|c cs IH]; intros m Hm; [by exists m|].
  destruct (tables_tracked_step m c Hm) as (m1 & e & Hex & Hm1).
  cbn. rewrite Hex. cbn. by apply IH.
Qed.

Lemma exec_enabled m (cs : list (call Row DDL)) m' :
  exec m cs = Returned m' tt → enabled m' = enabled m.
Proof.
  revert m. induction cs as [|c cs IH]; intros m; cbn; [by intros [= <-]|].
  destruct (exec_call m c) as [m1 e|] eqn:Hex; cbn; [|done].
  intros Hrest. rewrite (IH _ Hrest). by apply exec_call_frame in Hex as (-> & _).
Qed.

(** What NewManager returns enabled is the fresh manager around some
    writer. *)
Lemma NewManager_enabled (ctx : Ctx) cfg opts m (bg : bool) :
  NewManager ctx cfg opts = NewOk m bg → Enabled m = true →
  ∃ c w, cfg = Some c ∧ m = enabled_manager c w.
Proof.
  unfold NewManager. intros Hnew Hen.
  destruct cfg as [cfg|]; [|by injection Hnew as <- _].
  destruct (String.eqb (Level cfg) consistentLevelNormal); [by injection Hnew as <- _|].
  exists cfg.
  destruct (String.eqb (Storage cfg) consistentStorageBlackhole).
  { destruct opts; [|done]. injection Hnew as <- _. by eexists. }
  destruct (_ || _); [|done].
  destruct (String.eqb (Storage cfg) consistentStorageS3).
  - destruct (url_Parse _); [|done].
    destruct opts; [|done]. injection Hnew as <- _. by eexists.
  - destruct opts; [|done]. injection Hnew as <- _. by eexists.
Qed.

(** X4.  A manager that NewManager built enabled never faults: every
    sequence of calls, ticks included and whatever the writer answers,
    returns; the manager stays enabled and keeps its writer and its rtsMap,
    tableIDs stays strictly ascending, and every tracked id has an entry in
    rtsMap. *)
Theorem enabled_manager_never_faults (ctx : Ctx) cfg opts m (bg : bool)
    (cs : list (call Row DDL)) :
  NewManager ctx cfg opts = NewOk m bg → Enabled m = true →
  ∃ m' r, exec m cs = Returned m' tt
          ∧ Enabled m' = true
          ∧ is_Some (writer m')
          ∧ rtsMap m' = Some r
          ∧ StronglySorted Z.lt (tableIDs m')
          ∧ (∀ t, t ∈ tableIDs m' → is_Some (r !! t)).
Proof.
  intros Hnew Hen.
  destruct (NewManager_enabled ctx cfg opts m bg Hnew Hen) as (c & w & _ & ->).
  destruct (tables_tracked_exec (enabled_manager c w) cs) as (m' & Hex & r & Hr & Hw & Hsub & Hs).
  { exists ∅. cbn. split_and!; [done | by eexists | done | constructor]. }
  exists m', r. split_and!; [done | | done | done | done |].
  - unfold Enabled. by rewrite (exec_enabled _ _ _ Hex).
  - intros t Ht. apply elem_of_dom, Hsub. by apply elem_of_list_to_set.
Qed.

(** With a writer that reports what it was asked about, every call keeps
    the keys of the map equal to the slice. *)
Lemma tables_inv_step m (c : call Row DDL) :
  reports_requested W RedoRow RedoDDL →
  tables_inv m → is_Some (writer m) →
  ∃ m' e, exec_call m c = Returned m' e ∧ tables_inv m' ∧ is_Some (writer m').
Proof.
  intros Hrep (r & Hr & Hdom & Hs) Hw.
  destruct (tables_tracked_step m c) as (m' & e & Hex & (r' & Hr' & Hw' & _ & _)).
  { exists r. split_and!; [done | done | by rewrite Hdom | done]. }
  exists m', e. split; [done|]. split; [|done].
  destruct c as [t rows|t rts|ddl|rts cts|t s|t|].
  1-4: apply exec_call_frame in Hex as (_ & _ & _ & _ & Hids & Hmap & _);
       exists r; rewrite (Hids eq_refl), (Hmap eq_refl); done.
  - cbn in Hex. destruct (tables_inv_AddTable m t s) as (m1 & Hadd & Hinv);
      [by exists r|]. rewrite Hadd in Hex. cbn in Hex. by injection Hex as <- _.
  - cbn in Hex. destruct (tables_inv_RemoveTable m t) as (m1 & Hrem & Hinv);
      [by exists r|]. rewrite Hrem in Hex. cbn in Hex. by injection Hex as <- _.
  - cbn in Hex. unfold updateTableResolvedTs in Hex. destruct Hw as [w Hw].
    rewrite Hw in Hex.
    pose proof (Hrep w (tableIDs m)) as Hsub.
    destruct (GetCurrentResolvedTs w (tableIDs m)) as [w' [report [err|]]]; cbn in *.
    { injection Hex as <- _. by exists r. }
    rewrite Hr in Hex. injection Hex as <- _.
    cbn in Hr'. injection Hr' as <-.
    eexists. cbn. split_and!; [done | | done].
    destruct (range_fold_spec r MaxUint64 report) as (-> & _).
    rewrite dom_union_L, Hdom. apply set_eq. intros x. rewrite elem_of_union.
    split; [intros [?%Hsub|?]; done | by right].
Qed.

(** X5.  When the writer's GetCurrentResolvedTs names no table beside those
    it is asked about, the keys of rtsMap are exactly the elements of
    tableIDs after every sequence of calls, ticks included, on a manager
    that NewManager built enabled. *)
Theorem bookkeeping_invariant_all_calls (ctx : Ctx) cfg opts m (bg : bool)
    (cs : list (call Row DDL)) :
  reports_requested W RedoRow RedoDDL →
  NewManager ctx cfg opts = NewOk m bg → Enabled m = true →
  ∃ m' r, exec m cs = Returned m' tt
          ∧ rtsMap m' = Some r
          ∧ dom r = list_to_set (tableIDs m')
          ∧ StronglySorted Z.lt (tableIDs m').
Proof.
  intros Hrep Hnew Hen.
  destruct (NewManager_enabled ctx cfg opts m bg Hnew Hen) as (c & w & _ & ->).
  assert (tables_inv (enabled_manager c w) ∧ is_Some (writer (enabled_manager c w))) as Hinit.
  { split; [|by eexists]. exists ∅. cbn.
    split_and!; [done | by rewrite dom_empty_L | constructor]. }
  revert Hinit. generalize (enabled_manager c w). clear Hnew Hen.
  induction cs as [|c0 cs IH]; intros m0 [Hinv Hw].
  - destruct Hinv as (r & ? & ? & ?). by exists m0, r.
  - destruct (tables_inv_step m0 c0 Hrep Hinv Hw) as (m1 & e & Hex & Hinv1 & Hw1).
    cbn. rewrite Hex. cbn. by apply IH.
Qed.


(** X6.  A tick whose writer reports at least one table, every timestamp
    within uint64, publishes the least reported timestamp: some reported
    table has it and no reported table is below it.  The tick writes every
    reported timestamp over the table's entry in rtsMap, leaves the other
    entries, and does not touch tableIDs. *)
Theorem tick_publishes_least m (w w' : W) (report r : gmap Z Z) :
  writer m = Some w → rtsMap m = Some r →
  GetCurrentResolvedTs w (tableIDs m) = (w', (report, None)) →
  report ≠ ∅ → map_Forall (λ _ v, (v ≤ MaxUint64)%Z) report →
  ∃ m' t r',
    updateTableResolvedTs m = Returned m' None
    ∧ report !! t = Some (GetMinResolvedTs m')
    ∧ (∀ t' v, report !! t' = Some v → (GetMinResolvedTs m' ≤ v)%Z)
    ∧ rtsMap m' = Some r'
    ∧ (∀ t', r' !! t' = match report !! t' with Some v => Some v | None => r !! t' end)
    ∧ tableIDs m' = tableIDs m.
Proof.
  intros Hw Hr Hget Hne Hbound.
  destruct (tick_publishes m w w' report Hw Hget) as (m' & Hm' & Hmin & Hids & _ & Hmap).
  { left. by eexists. }
  rewrite Hr in Hmap. cbn in Hmap.
  destruct (range_fold_spec ∅ MaxUint64 report) as (_ & _ & Hlow & Hatt).
  cbn zeta in Hlow, Hatt. fold (report_min report) in Hlow, Hatt.
  assert (∃ t, report !! t = Some (report_min report)) as [t Ht].
  { destruct Hatt as [Hmax|?]; [|done].
    destruct (map_choose report Hne) as (t & v & Htv). exists t.
    pose proof (Hlow t v Htv). pose proof (Hbound t v Htv) as Hv. cbn in Hv.
    rewrite Htv. f_equal. lia. }
  exists m', t, (report ∪ r). rewrite Hmin. split_and!; [done | done | done | done | | done].
  intros t'. rewrite lookup_union. destruct (report !! t'), (r !! t'); done.
Qed.

(** X15.  A tick whose writer reports no table publishes 2^64 - 1 however
    many tables are tracked and whatever rtsMap holds for them, and leaves
    rtsMap and tableIDs as they are: a tracked table the writer is silent
    about does not hold the published minimum back. *)
Theorem tick_with_empty_report m (w w' : W) :
  writer m = Some w →
  GetCurrentResolvedTs w (tableIDs m) = (w', (∅, None)) →
  ∃ m', updateTableResolvedTs m = Returned m' None
        ∧ GetMinResolvedTs m' = (2 ^ 64 - 1)%Z
        ∧ rtsMap m' = rtsMap m
        ∧ tableIDs m' = tableIDs m.
Proof.
  intros Hw Hget.
  destruct (tick_publishes m w w' ∅ Hw Hget) as (m' & Hm' & Hmin & Hids & _ & Hmap);
    [by right|].
  exists m'. split_and!; [done | by rewrite Hmin, report_min_empty | | done].
  rewrite Hmap. destruct (rtsMap m) as [r|]; [|done].
  cbn. by rewrite (left_id_L ∅ (∪)).
Qed.

(** The loop goes on after ticks that succeed. *)
Lemma run_app_ticks (n : nat) (rest : list bool) m m1 :
  run (replicate n true) m = Returned m1 [] →
  run (replicate n true ++ rest) m = run rest m1.
Proof.
  revert m. induction n as [|n IH]; intros m; cbn; [by intros [= <-]|].
  destruct (updateTableResolvedTs m) as [m0 [e|]|]; cbn; [done | apply IH | done].
Qed.

(** X7.  The background loop sends at most one error.  After ticks that all
    succeeded, [ctx.Done()] ends it with nothing sent, and a tick that
    fails ends it with exactly that error sent; what follows is not looked
    at.  The failing tick leaves the published minimum, rtsMap and tableIDs
    as the last successful tick left them. *)
Theorem background_loop_stops :
  (∀ ticks m m' errs, run ticks m = Returned m' errs → length errs ≤ 1)
  ∧ (∀ n rest m m1,
       run (replicate n true) m = Returned m1 [] →
       run (replicate n true ++ false :: rest) m = Returned m1 [])
  ∧ (∀ n rest m m1 m2 e,
       run (replicate n true) m = Returned m1 [] →
       updateTableResolvedTs m1 = Returned m2 (Some e) →
       run (replicate n true ++ true :: rest) m = Returned m2 [e]
       ∧ GetMinResolvedTs m2 = GetMinResolvedTs m1
       ∧ rtsMap m2 = rtsMap m1
       ∧ tableIDs m2 = tableIDs m1).
Proof.
  split_and!.
  - intros ticks. induction ticks as [|[|] ticks IH]; intros m m' errs; cbn.
    + intros [= _ <-]. cbn. lia.
    + destruct (updateTableResolvedTs m) as [m0 [e|]|]; cbn; [| apply IH | done].
      intros [= _ <-]. cbn. lia.
    + intros [= _ <-]. cbn. lia.
  - intros n rest m m1 Hn. by rewrite (run_app_ticks n _ m m1 Hn).
  - intros n rest m m1 m2 e Hn Hup. rewrite (run_app_ticks n _ m m1 Hn).
    cbn. rewrite Hup. cbn. split; [done|].
    unfold updateTableResolvedTs in Hup. destruct (writer m1) as [w|]; [|done].
    destruct (GetCurrentResolvedTs w (tableIDs m1)) as [w' [report [err|]]]; cbn in Hup.
    + by injection Hup as <- _.
    + destruct (rtsMap m1); [done|]. by destruct (decide _).
Qed.

(** One call on two managers that differ in the contents of [rtsMap]. *)
Lemma same_but_rtsMap_step m1 m2 (c : call Row DDL) :
  same_but_rtsMap m1 m2 → same_outcome (exec_call m1 c) (exec_call m2 c).
Proof.
  destruct m1 as [en1 lv1 st1 wr1 mn1 ids1 rm1], m2 as [en2 lv2 st2 wr2 mn2 ids2 rm2].
  intros [Heq Hsome]. cbn in Heq, Hsome. injection Heq as <- <- <- <- <- <-.
  destruct c; cbn.
  - unfold EmitRowChangedEvents. cbn. destruct wr1; [|done].
    by destruct (WriteLog _ _ _) as [? [? ?]].
  - unfold FlushLog. cbn. destruct wr1; [|done].
    by destruct (FlushLog_w _ _ _) as [? ?].
  - unfold EmitDDLEvent. cbn. destruct wr1; [|done].
    by destruct (SendDDL _ _) as [? ?].
  - unfold FlushResolvedAndCheckpointTs. cbn. destruct wr1; [|done].
    destruct (EmitResolvedTs _ _) as [? [?|]]; [done|].
    by destruct (EmitCheckpointTs _ _) as [? ?].
  - unfold AddTable. cbn [tableIDs].
    match goal with |- context [Search ?n ?f] => destruct (Search n f) end; [|done].
    cbn zeta. destruct (_ && _); cbn; [done|].
    destruct rm1, rm2; cbn; try done;
      destruct Hsome as [H1 H2]; exfalso;
      [destruct H1 as [? [=]] | destruct H2 as [? [=]]]; by eexists.
  - unfold RemoveTable. cbn [tableIDs].
    match goal with |- context [Search ?n ?f] => destruct (Search n f) end; [|done].
    cbn zeta. destruct (_ && _); cbn; [|done].
    split; [done|]. split; [done|]. cbn. by rewrite !fmap_is_Some.
  - unfold updateTableResolvedTs. cbn. destruct wr1 as [w|]; [|done].
    destruct (GetCurrentResolvedTs w ids1) as [w' [report [err|]]]; cbn; [done|].
    destruct rm1, rm2; cbn.
    + rewrite !range_fold_min. done.
    + destruct Hsome as [H1 _]. destruct H1 as [? [=]]. by eexists.
    + destruct Hsome as [_ H2]. destruct H2 as [? [=]]. by eexists.
    + by destruct (decide _).
Qed.

Lemma same_but_rtsMap_report m1 m2 (c : call Row DDL) :
  same_but_rtsMap m1 m2 →
  report_of m1 c = report_of m2 c ∧ GetMinResolvedTs m1 = GetMinResolvedTs m2.
Proof.
  destruct m1, m2. intros [Heq _]. cbn in Heq. by injection Heq as <- <- <- <- <- <-.
Qed.

(** X8.  What rtsMap holds is never read: two managers that differ only in
    the contents of an allocated rtsMap answer every call alike (same
    result, same error, same fault), stay alike in everything but rtsMap,
    and publish the same values along every run.  So the start timestamp
    given to AddTable shows in nothing the manager returns. *)
Theorem rtsMap_never_read m1 m2 (cs : list (call Row DDL)) :
  same_but_rtsMap m1 m2 →
  (∀ c, same_outcome (exec_call m1 c) (exec_call m2 c))
  ∧ same_outcome (exec m1 cs) (exec m2 cs)
  ∧ trace m1 cs = trace m2 cs.
Proof.
  intros Hsame. split; [intros c; by apply same_but_rtsMap_step|].
  revert m1 m2 Hsame. induction cs as [|c cs IH]; intros m1 m2 Hsame; [done|].
  pose proof (same_but_rtsMap_step m1 m2 c Hsame) as Hstep.
  destruct (same_but_rtsMap_report m1 m2 c Hsame) as [Hrep _].
  cbn. destruct (exec_call m1 c) as [a1 e1|a1 p1], (exec_call m2 c) as [a2 e2|a2 p2];
    cbn in *; try done.
  destruct Hstep as [-> Hsame']. destruct (IH a1 a2 Hsame') as [Hex Htr].
  split; [done|]. rewrite Hrep, Htr.
  by destruct (same_but_rtsMap_report a1 a2 c Hsame') as [_ ->].
Qed.

(** X9.  What calls leave alone.  No call changes enabled, level or
    storage.  EmitRowChangedEvents, FlushLog, EmitDDLEvent and
    FlushResolvedAndCheckpointTs change neither tableIDs nor rtsMap nor the
    published minimum; AddTable and RemoveTable make no call on the writer
    and do not change the published minimum; a tick does not change
    tableIDs. *)
Theorem calls_leave_alone m (cs : list (call Row DDL)) m' :
  exec m cs = Returned m' tt →
  Enabled m' = Enabled m ∧ level m' = level m ∧ storage m' = storage m
  ∧ (forallb is_writer_call cs = true →
     tableIDs m' = tableIDs m ∧ rtsMap m' = rtsMap m
     ∧ GetMinResolvedTs m' = GetMinResolvedTs m)
  ∧ (forallb is_table_call cs = true →
     writer m' = writer m ∧ GetMinResolvedTs m' = GetMinResolvedTs m)
  ∧ (forallb is_tick cs = true → tableIDs m' = tableIDs m).
Proof.
  revert m. induction cs as [|c cs IH]; intros m; cbn.
  { intros [= <-]. by split_and!. }
  destruct (exec_call m c) as [m1 e|] eqn:Hex; cbn; [|done].
  intros Hrest. destruct (IH _ Hrest) as (He & Hl & Hst & Hwc & Htc & Htk).
  apply exec_call_frame in Hex as (He1 & Hl1 & Hst1 & Hmin1 & Hids1 & Hmap1 & Hw1 & _).
  unfold Enabled, GetMinResolvedTs in *.
  split_and!; [congruence | congruence | congruence | | |].
  - intros [Hc Hcs]%andb_true_iff. destruct (Hwc Hcs) as (-> & -> & ->).
    rewrite Hmap1 by done. destruct c; try discriminate Hc; by rewrite Hids1, Hmin1.
  - intros [Hc Hcs]%andb_true_iff. destruct (Htc Hcs) as (-> & ->).
    destruct (Hw1 Hc) as [-> _]. destruct c; try discriminate Hc; by rewrite Hmin1.
  - intros [Hc Hcs]%andb_true_iff. rewrite (Htk Hcs).
    destruct c; try discriminate Hc. by apply Hids1.
Qed.

(** Whatever NewManager returns is the zero manager or the fresh manager
    around some writer. *)
Lemma NewManager_result (ctx : Ctx) cfg opts m (bg : bool) :
  NewManager ctx cfg opts = NewOk m bg →
  m = NewDisabledManager ∨ ∃ c w, cfg = Some c ∧ m = enabled_manager c w.
Proof.
  intros Hnew. destruct (Enabled m) eqn:Hen.
  - right. by eapply NewManager_enabled.
  - left. unfold NewManager in Hnew.
    destruct cfg as [cfg|]; [|by injection Hnew as <- _].
    destruct (String.eqb (Level cfg) consistentLevelNormal); [by injection Hnew as <- _|].
    destruct (String.eqb (Storage cfg) consistentStorageBlackhole).
    { destruct opts; [|done]. injection Hnew as <- _. done. }
    destruct (_ || _); [|done].
    destruct (String.eqb (Storage cfg) consistentStorageS3).
    + destruct (url_Parse _); [|done].
      destruct opts; [|done]. injection Hnew as <- _. done.
    + destruct opts; [|done]. injection Hnew as <- _. done.
Qed.

(** X10.  Until the first tick, GetMinResolvedTs returns 0 on whatever
    NewManager returned, whichever tables were added with whichever start
    timestamps and whatever was flushed. *)
Theorem min_resolved_ts_before_first_tick (ctx : Ctx) cfg opts m (bg : bool)
    (cs : list (call Row DDL)) m' :
  NewManager ctx cfg opts = NewOk m bg →
  forallb (λ c, negb (is_tick c)) cs = true →
  exec m cs = Returned m' tt →
  GetMinResolvedTs m' = 0%Z.
Proof.
  intros Hnew Hcs Hex.
  assert (GetMinResolvedTs m = 0%Z) as <-.
  { destruct (NewManager_result ctx cfg opts m bg Hnew) as [->|(c & w & _ & ->)]; done. }
  clear Hnew. revert m Hex. induction cs as [|c cs IH]; intros m; cbn.
  { by intros [= <-]. }
  cbn in Hcs. apply andb_true_iff in Hcs as [Hc Hcs].
  destruct (exec_call m c) as [m1 e|] eqn:Hex; cbn; [|done].
  intros Hrest. rewrite (IH Hcs _ Hrest).
  apply exec_call_frame in Hex as (_ & _ & _ & Hmin & _).
  apply Hmin. by destruct (is_tick c).
Qed.

(** X11.  NewManager with nil options faults exactly when it would have
    built an enabled manager: the config is there, Level is not normal,
    Storage is one of local, s3, blackhole, and for s3 the URI parses.  On
    the disabled and on the error paths the options are not looked at, and
    with options given NewManager never faults. *)
Theorem NewManager_nil_options (ctx : Ctx) (cfg : option ConsistentConfig) :
  (NewManager ctx cfg None = NewPanic NilDereference
   ↔ ∃ c, cfg = Some c
          ∧ Level c ≠ consistentLevelNormal
          ∧ IsValidConsistentStorage (Storage c) = true
          ∧ (Storage c = consistentStorageS3 → ∃ u, url_Parse (S3URI c) = inl u))
  ∧ (∀ o p, NewManager ctx cfg (Some o) ≠ NewPanic p).
Proof.
  split.
  - unfold NewManager, IsValidConsistentStorage. split.
    + destruct cfg as [c|]; [|done]. intros Hp. exists c. split; [done|].
      destruct (String.eqb_spec (Level c) consistentLevelNormal) as [|Hl]; [done|].
      split; [done|].
      destruct (String.eqb_spec (Storage c) consistentStorageBlackhole) as [Hb|Hb].
      { rewrite Hb. split; [done|]. intros [=]. }
      destruct (String.eqb_spec (Storage c) consistentStorageLocal) as [Hlo|Hlo].
      { rewrite Hlo. split; [done|]. intros [=]. }
      destruct (String.eqb_spec (Storage c) consistentStorageS3) as [Hs3|Hs3]; [|done].
      cbn in Hp. split; [done|]. intros _.
      destruct (url_Parse (S3URI c)); [by eexists | done].
    + intros (c & -> & Hl & Hst & Hs3).
      rewrite (proj2 (String.eqb_neq _ _) Hl).
      destruct (String.eqb_spec (Storage c) consistentStorageBlackhole) as [Hb|Hb]; [done|].
      destruct (String.eqb_spec (Storage c) consistentStorageLocal) as [Hlo|Hlo].
      { rewrite Hlo. done. }
      destruct (String.eqb_spec (Storage c) consistentStorageS3) as [He|He].
      * cbn. destruct (Hs3 He) as [u ->]. done.
      * by destruct (String.eqb (Storage c) consistentStorageBlackhole).
  - intros o p. unfold NewManager. destruct cfg as [c|]; [|done].
    destruct (String.eqb (Level c) consistentLevelNormal); [done|].
    destruct (String.eqb (Storage c) consistentStorageBlackhole); [done|].
    destruct (_ || _); [|done].
    destruct (String.eqb (Storage c) consistentStorageS3); [|done].
    by destruct (url_Parse _).
Qed.

(** X12.  For Storage = local NewManager does not parse the S3 URI: it
    succeeds whatever S3URI holds, with a log writer configured for the
    directory [filepath.Join(DataDir, DefaultRedoDir)], the capture and
    changefeed of the context, the sizes of the config, S3Storage = false
    and no URI.  For Storage = s3 with a URI that parses, the same with
    S3Storage = true and the parsed URI.  The background loop is started
    exactly when EnableBgRunner is set. *)
Theorem NewManager_log_writer (ctx : Ctx) (c : ConsistentConfig) (o : ManagerOptions) :
  Level c ≠ consistentLevelNormal →
  (Storage c = consistentStorageLocal →
   NewManager ctx (Some c) (Some o)
   = NewOk (enabled_manager c
              (NewLogWriter ctx
                 {| Dir := filepath_Join (DataDir ctx) DefaultRedoDir;
                    CaptureID := CaptureAddr ctx; ChangeFeedID := ChangefeedID ctx;
                    CreateTime := Now ctx; CfgMaxLogSize := MaxLogSize c;
                    CfgFlushIntervalInMs := FlushIntervalInMs c;
                    S3Storage := false; CfgS3URI := None |}))
       (EnableBgRunner o))
  ∧ (Storage c = consistentStorageS3 →
     ∀ u, url_Parse (S3URI c) = inl u →
          NewManager ctx (Some c) (Some o)
          = NewOk (enabled_manager c
                     (NewLogWriter ctx
                        {| Dir := filepath_Join (DataDir ctx) DefaultRedoDir;
                           CaptureID := CaptureAddr ctx; ChangeFeedID := ChangefeedID ctx;
                           CreateTime := Now ctx; CfgMaxLogSize := MaxLogSize c;
                           CfgFlushIntervalInMs := FlushIntervalInMs c;
                           S3Storage := true; CfgS3URI := Some u |}))
              (EnableBgRunner o)).
Proof.
  intros Hl. unfold NewManager. rewrite (proj2 (String.eqb_neq _ _) Hl). split.
  - intros ->. done.
  - intros -> u Hu. cbn. by rewrite Hu.
Qed.

End runs.

(** *** Scenarios on the scenario writer *)

Lemma scenario_tables_inv (w : gmap Z Z) : tables_inv (scenario_tables w).
Proof.
  eexists. split_and!; [reflexivity | vm_compute; reflexivity |].
  repeat constructor; lia.
Qed.

Lemma tableWriter_reports_requested : reports_requested (gmap Z Z) unit unit.
Proof.
  intros w ids. cbn. induction ids as [|t ids IH]; cbn.
  - by rewrite dom_empty_L.
  - destruct (w !! t).
    + rewrite dom_insert_L. intros x [->%elem_of_singleton|Hx]%elem_of_union.
      * by apply elem_of_union_l, elem_of_singleton.
      * by apply elem_of_union_r, IH.
    + intros x Hx. by apply elem_of_union_r, IH.
Qed.

Lemma add_then_remove_restores_witness :
  ∃ m1 r1,
    AddTable (scenario_tables ∅) 2 200 = Returned m1 tt
    ∧ 2%Z ∈ tableIDs m1
    ∧ rtsMap m1 = Some r1 ∧ r1 !! 2%Z = Some 200%Z
    ∧ tables_inv m1
    ∧ RemoveTable m1 2 = Returned (scenario_tables ∅) tt.
Proof.
  apply (add_then_remove_restores (scenario_tables ∅) 2 200);
    [apply scenario_tables_inv | apply (bool_decide_unpack _); vm_compute; reflexivity].
Defined.

Lemma remove_then_add_restores_witness :
  ∃ m1 r1,
    RemoveTable (scenario_tables ∅) 3 = Returned m1 tt
    ∧ (3%Z ∉ tableIDs m1)
    ∧ rtsMap m1 = Some r1 ∧ r1 !! 3%Z = None
    ∧ tables_inv m1
    ∧ AddTable m1 3 150 = Returned (scenario_tables ∅) tt.
Proof.
  apply (remove_then_add_restores (scenario_tables ∅) 3 150 {[1 := 100; 3 := 150]}%Z);
    [apply scenario_tables_inv | reflexivity | vm_compute; reflexivity].
Defined.

Lemma table_calls_commute_witness :
  exec (scenario_tables ∅) [CallAddTable 2 200; CallRemoveTable 3]%Z
  = exec (scenario_tables ∅) [CallRemoveTable 3; CallAddTable 2 200]%Z.
Proof.
  apply (table_calls_commute (scenario_tables ∅));
    [repeat constructor; lia | by eexists | reflexivity | reflexivity | discriminate].
Defined.

Lemma enabled_manager_never_faults_witness :
  ∃ m' r,
    exec (scenario_manager ∅)
      [CallTick; CallAddTable 3 150; CallFlushLog 9 90; CallTick;
       CallEmitRowChangedEvents 3 [tt]; CallRemoveTable 3; CallAddTable 3 10;
       CallEmitDDLEvent tt; CallFlushResolvedAndCheckpointTs 5 4; CallTick]%Z
    = Returned m' tt
    ∧ Enabled m' = true
    ∧ is_Some (writer m')
    ∧ rtsMap m' = Some r
    ∧ StronglySorted Z.lt (tableIDs m')
    ∧ (∀ t, t ∈ tableIDs m' → is_Some (r !! t)).
Proof.
  apply (enabled_manager_never_faults scenario_ctx (Some scenario_cfg)
           (Some scenario_opts) (scenario_manager ∅) false); reflexivity.
Defined.

Lemma bookkeeping_invariant_all_calls_witness :
  ∃ m' r,
    exec (scenario_manager ∅)
      [CallAddTable 3 150; CallFlushLog 3 160; CallAddTable 1 100; CallTick;
       CallFlushLog 1 120; CallRemoveTable 3; CallTick]%Z
    = Returned m' tt
    ∧ rtsMap m' = Some r
    ∧ dom r = list_to_set (tableIDs m')
    ∧ StronglySorted Z.lt (tableIDs m').
Proof.
  apply (bookkeeping_invariant_all_calls scenario_ctx (Some scenario_cfg)
           (Some scenario_opts) (scenario_manager ∅) false);
    [apply tableWriter_reports_requested | reflexivity | reflexivity].
Defined.

Lemma tick_publishes_least_witness :
  ∃ m' t r',
    updateTableResolvedTs (scenario_tables {[1 := 120; 3 := 160]}%Z) = Returned m' None
    ∧ ({[1 := 120; 3 := 160]}%Z : gmap Z Z) !! t = Some (GetMinResolvedTs m')
    ∧ (∀ t' v, ({[1 := 120; 3 := 160]}%Z : gmap Z Z) !! t' = Some v →
               (GetMinResolvedTs m' ≤ v)%Z)
    ∧ rtsMap m' = Some r'
    ∧ (∀ t', r' !! t' = match ({[1 := 120; 3 := 160]}%Z : gmap Z Z) !! t' with
                        | Some v => Some v
                        | None => ({[1 := 100; 3 := 150]}%Z : gmap Z Z) !! t'
                        end)
    ∧ tableIDs m' = tableIDs (scenario_tables {[1 := 120; 3 := 160]}%Z).
Proof.
  apply (tick_publishes_least (scenario_tables {[1 := 120; 3 := 160]}%Z)
           {[1 := 120; 3 := 160]}%Z {[1 := 120; 3 := 160]}%Z);
    [reflexivity | reflexivity | vm_compute; reflexivity
    | apply (bool_decide_unpack _); vm_compute; reflexivity
    | apply (bool_decide_unpack _); vm_compute; reflexivity].
Defined.

Lemma tick_with_empty_report_witness :
  ∃ m', updateTableResolvedTs (scenario_tables ∅) = Returned m' None
        ∧ GetMinResolvedTs m' = (2 ^ 64 - 1)%Z
        ∧ rtsMap m' = rtsMap (scenario_tables ∅)
        ∧ tableIDs m' = tableIDs (scenario_tables ∅).
Proof.
  apply (tick_with_empty_report (scenario_tables ∅) ∅ ∅); [reflexivity|].
  vm_compute. reflexivity.
Defined.

Lemma background_loop_stops_witness :
  ∃ m1, run (replicate 2 true ++ false :: [true])
          (scenario_tables {[1 := 120; 3 := 160]}%Z)
        = Returned m1 [].
Proof.
  eexists.
  apply (proj1 (proj2 background_loop_stops) 2 [true]
           (scenario_tables {[1 := 120; 3 := 160]}%Z)).
  vm_compute. reflexivity.
Defined.

Lemma rtsMap_never_read_witness :
  trace (scenario_tables {[1 := 120; 3 := 160]}%Z)
    [CallTick; CallAddTable 2 7; CallFlushLog 2 50; CallTick; CallRemoveTable 1; CallTick]%Z
  = trace (set_rtsMap (scenario_tables {[1 := 120; 3 := 160]}%Z) (Some ∅))
      [CallTick; CallAddTable 2 7; CallFlushLog 2 50; CallTick; CallRemoveTable 1; CallTick]%Z.
Proof.
  apply (rtsMap_never_read (scenario_tables {[1 := 120; 3 := 160]}%Z)
           (set_rtsMap (scenario_tables {[1 := 120; 3 := 160]}%Z) (Some ∅))).
  split; [reflexivity | split; intros _; by eexists].
Defined.

Lemma calls_leave_alone_witness :
  writer (state_of (exec (scenario_tables ∅)
                      [CallAddTable 2 200; CallRemoveTable 3; CallAddTable 5 1]%Z))
  = writer (scenario_tables ∅)
  ∧ GetMinResolvedTs (state_of (exec (scenario_tables ∅)
                                  [CallAddTable 2 200; CallRemoveTable 3; CallAddTable 5 1]%Z))
    = GetMinResolvedTs (scenario_tables ∅).
Proof.
  apply (calls_leave_alone (scenario_tables ∅)
           [CallAddTable 2 200; CallRemoveTable 3; CallAddTable 5 1]%Z);
    vm_compute; reflexivity.
Defined.

Lemma min_resolved_ts_before_first_tick_witness :
  GetMinResolvedTs
    (state_of (exec (scenario_manager ∅)
                 [CallAddTable 1 100; CallFlushLog 1 120; CallAddTable 2 200]%Z))
  = 0%Z.
Proof.
  apply (min_resolved_ts_before_first_tick scenario_ctx (Some scenario_cfg)
           (Some scenario_opts) (scenario_manager ∅) false
           [CallAddTable 1 100; CallFlushLog 1 120; CallAddTable 2 200]%Z);
    vm_compute; reflexivity.
Defined.

Lemma NewManager_nil_options_witness :
  NewManager scenario_ctx (Some scenario_cfg) None
  = (NewPanic NilDereference : @new_result (gmap Z Z)).
Proof.
  apply (proj2 (proj1 (NewManager_nil_options scenario_ctx (Some scenario_cfg)))).
  exists scenario_cfg. split_and!; [reflexivity | discriminate | reflexivity | discriminate].
Defined.

Lemma NewManager_log_writer_witness :
  NewManager scenario_ctx
    (Some {| Level := "eventual"; Storage := "local"; MaxLogSize := 64;
             FlushIntervalInMs := 1000; S3URI := "" |})
    (Some scenario_opts)
  = NewOk (enabled_manager
             {| Level := "eventual"; Storage := "local"; MaxLogSize := 64;
                FlushIntervalInMs := 1000; S3URI := "" |}
             (NewLogWriter scenario_ctx
                {| Dir := "/var/lib/cdc/redo"; CaptureID := "127.0.0.1:8300";
                   ChangeFeedID := "cf-1"; CreateTime := 0; CfgMaxLogSize := 64;
                   CfgFlushIntervalInMs := 1000; S3Storage := false;
                   CfgS3URI := (None : option string) |}))
      false.
Proof.
  refine (proj1 (NewManager_log_writer scenario_ctx
                   {| Level := "eventual"; Storage := "local"; MaxLogSize := 64;
                      FlushIntervalInMs := 1000; S3URI := "" |} scenario_opts _) _);
    [discriminate | reflexivity].
Defined.

End ManagerFacts.

(** ** The stand-in data node of the actor test *)

Module FakeNodeFacts.
Import FakeNode.

Section node.
Context {Msg : Type}.
Implicit Types n : FakeTableActorDataNode Msg.

Lemma nil_channel_run (ops : list (node_op Msg)) :
  node_run {| outputCh := None |} ops = ({| outputCh := None |}, refusal <$> ops).
Proof.
  induction ops as [|o ops IH]; [done|].
  cbn [node_run]. destruct o; cbn; by rewrite IH.
Qed.

(** X13.  The data nodes the FakeTableNodeCreator hands out have a nil
    channel: whatever is done with them, TryHandleDataMessage answers
    (false, nil), TryGetProcessedMessage answers nil, Start answers nil,
    and the node stays as it was. *)
Theorem created_nodes_refuse (tableID startTs markTableID : Z) (tableName : string)
    (ops : list (node_op Msg)) :
  node_run (NewPullerNode tableID tableName) ops
  = (NewPullerNode tableID tableName, refusal <$> ops)
  ∧ node_run (NewSorterNode tableName tableID startTs) ops
    = (NewSorterNode tableName tableID startTs, refusal <$> ops)
  ∧ node_run (NewCyclicNode markTableID) ops
    = (NewCyclicNode markTableID, refusal <$> ops).
Proof. split_and!; apply nil_channel_run. Qed.

Lemma node_step_open (c : chan Msg) (o : node_op Msg) :
  length (buf c) ≤ cap c →
  ∃ c', (node_step {| outputCh := Some c |} o).1 = {| outputCh := Some c' |}
        ∧ cap c' = cap c ∧ length (buf c') ≤ cap c
        ∧ buf c ++ accepted_msgs [o] [(node_step {| outputCh := Some c |} o).2]
          = delivered_msgs [(node_step {| outputCh := Some c |} o).2] ++ buf c'.
Proof.
  intros Hlen. destruct c as [n b]. cbn in Hlen. destruct o as [msg| |].
  - unfold node_step, TryHandleDataMessage, try_send. cbn [outputCh buf cap].
    destruct (Nat.ltb_spec (length b) n); cbn.
    + eexists. split; [done|]. cbn. rewrite length_app. cbn. split_and!; [done | lia | done].
    + eexists. split; [done|]. cbn. by rewrite app_nil_r.
  - cbn. destruct b as [|v b]; cbn.
    + eexists. split; [done|]. cbn. split_and!; [done | lia | done].
    + eexists. split; [done|]. cbn in *. split_and!; [done | lia |]. by rewrite app_nil_r.
  - cbn. eexists. split; [done|]. cbn. split_and!; [done | lia |]. by rewrite app_nil_r.
Qed.

Lemma accepted_msgs_cons (o : node_op Msg) (r : node_reply Msg) ops rs :
  accepted_msgs (o :: ops) (r :: rs) = accepted_msgs [o] [r] ++ accepted_msgs ops rs.
Proof. destruct o, r as [[|] ?| |]; done. Qed.

Lemma delivered_msgs_cons (r : node_reply Msg) rs :
  delivered_msgs (r :: rs) = delivered_msgs [r] ++ delivered_msgs rs.
Proof. destruct r as [? ?|[?|]|]; done. Qed.

(** X14.  A node whose channel is open keeps the order of its messages and
    loses none: after any run of operations, the messages buffered at the
    start followed by the messages TryHandleDataMessage accepted are the
    messages TryGetProcessedMessage gave out followed by those still
    buffered; the buffer never holds more than the capacity. *)
Theorem open_channel_fifo (c : chan Msg) (ops : list (node_op Msg)) :
  length (buf c) ≤ cap c →
  ∃ c', (node_run {| outputCh := Some c |} ops).1 = {| outputCh := Some c' |}
        ∧ cap c' = cap c
        ∧ length (buf c') ≤ cap c
        ∧ buf c ++ accepted_msgs ops (node_run {| outputCh := Some c |} ops).2
          = delivered_msgs (node_run {| outputCh := Some c |} ops).2 ++ buf c'.
Proof.
  revert c. induction ops as [|o ops IH]; intros c Hlen.
  { exists c. cbn. by rewrite app_nil_r. }
  destruct (node_step_open c o Hlen) as (c1 & Hn1 & Hcap1 & Hlen1 & Hcons1).
  cbn [node_run]. destruct (node_step _ o) as [n1 r] eqn:Hstep.
  cbn [fst snd] in Hn1, Hcons1. subst n1.
  destruct (IH c1) as (c2 & Hn2 & Hcap2 & Hlen2 & Hcons2); [lia|].
  destruct (node_run _ ops) as [n2 rs]. cbn [fst snd] in *.
  exists c2. split_and!; [done | congruence | lia |].
  rewrite accepted_msgs_cons, delivered_msgs_cons.
  rewrite app_assoc, Hcons1, <- !app_assoc. by rewrite Hcons2.
Qed.

End node.

Lemma open_channel_fifo_witness :
  ∃ c', (node_run {| outputCh := Some {| cap := 2; buf := [7%Z] |} |}
           [OpHandle 1%Z; OpHandle 2%Z; OpGet; OpHandle 3%Z; OpGet; OpStart; OpGet;
            OpGet; OpHandle 4%Z]).1
        = {| outputCh := Some c' |}
        ∧ cap c' = 2
        ∧ length (buf c') ≤ 2
        ∧ [7%Z] ++ accepted_msgs
                     [OpHandle 1%Z; OpHandle 2%Z; OpGet; OpHandle 3%Z; OpGet; OpStart;
                      OpGet; OpGet; OpHandle 4%Z]
                     (node_run {| outputCh := Some {| cap := 2; buf := [7%Z] |} |}
                        [OpHandle 1%Z; OpHandle 2%Z; OpGet; OpHandle 3%Z; OpGet; OpStart;
                         OpGet; OpGet; OpHandle 4%Z]).2
          = delivered_msgs
              (node_run {| outputCh := Some {| cap := 2; buf := [7%Z] |} |}
                 [OpHandle 1%Z; OpHandle 2%Z; OpGet; OpHandle 3%Z; OpGet; OpStart;
                  OpGet; OpGet; OpHandle 4%Z]).2
            ++ buf c'.
Proof.
  apply (open_channel_fifo {| cap := 2; buf := [7%Z] |}). cbn. lia.
Defined.

End FakeNodeFacts.
